(** * Verification of the [coerce] sanitizer library

    The development embeds the string mutators [quotes] and [proper] of
    [src/mutator.ts] and the failure policy of [src/index.ts].

    JavaScript strings are sequences of UTF-16 code units; the regular
    expressions of the source carry no [u] flag, so they match code unit by
    code unit.  A small backtracking matcher in continuation-passing style
    gives the regular expressions their ECMAScript meaning (greedy
    quantifiers, ordered alternation, capture groups, the assertions [^], [$],
    [\b], [\B] and the positive lookahead), and [replace_g], [replace_1] and
    [test] give [String.prototype.replace] and [RegExp.prototype.test].

    The file has the definitions first (strings, matcher, [quotes], [proper],
    the coercion pipeline, and the vocabulary of the statements) and then the
    lemmas: general properties of the matcher, the results on [quotes], the
    results on [proper], and the failure policy. *)

From Stdlib Require Import List NArith ZArith Bool Arith Lia String Ascii.
Import ListNotations.

Set Implicit Arguments.

(** ** Strings *)

Definition char := N.
Definition jsstring := list char.

Local Open Scope N_scope.

(** Decoding of a UTF-8 literal of this file into UTF-16 code units, so that
    the examples can be written as they appear in the source. *)
Fixpoint bytes_of (s : string) : list N :=
  match s with
  | EmptyString => []
  | String a t => N_of_ascii a :: bytes_of t
  end.

Definition cont6 (b : N) : N := N.land b 63.

Fixpoint utf16 (fuel : nat) (bs : list N) : jsstring :=
  match fuel with
  | O => []
  | S f =>
    match bs with
    | [] => []
    | b1 :: t1 =>
      if b1 <? 128 then b1 :: utf16 f t1
      else if b1 <? 224 then
        match t1 with
        | b2 :: t2 => (N.land b1 31 * 64 + cont6 b2) :: utf16 f t2
        | [] => []
        end
      else if b1 <? 240 then
        match t1 with
        | b2 :: b3 :: t3 =>
            (N.land b1 15 * 4096 + cont6 b2 * 64 + cont6 b3) :: utf16 f t3
        | _ => []
        end
      else
        match t1 with
        | b2 :: b3 :: b4 :: t4 =>
            let cp := N.land b1 7 * 262144 + cont6 b2 * 4096
                      + cont6 b3 * 64 + cont6 b4 in
            let v := cp - 65536 in
            (55296 + v / 1024) :: (56320 + v mod 1024) :: utf16 f t4
        | _ => []
        end
    end
  end.

Definition js (s : string) : jsstring :=
  let bs := bytes_of s in utf16 (List.length bs) bs.

(** Named code units. *)
Definition c_space : char := 32.
Definition c_dquote : char := 34.       (* the ASCII double quote *)
Definition c_apos : char := 39.         (* ' *)
Definition c_comma : char := 44.
Definition c_hyphen : char := 45.
Definition c_dot : char := 46.
Definition c_lsquo : char := 8216.      (* U+2018 *)
Definition c_rsquo : char := 8217.      (* U+2019 *)
Definition c_ldquo : char := 8220.      (* U+201C *)
Definition c_rdquo : char := 8221.      (* U+201D *)
Definition c_prime : char := 8242.      (* U+2032 *)
Definition c_dprime : char := 8243.     (* U+2033 *)
Definition c_tprime : char := 8244.     (* U+2034 *)
Definition c_emdash : char := 8212.     (* U+2014 *)
Definition c_ellipsis : char := 8230.   (* U+2026 *)

(** ** Character classes *)

Definition in_range (lo hi c : char) : bool := (lo <=? c) && (c <=? hi).

Definition chr_is (a : char) (c : char) : bool := c =? a.
Definition chr_not (a : char) (c : char) : bool := negb (c =? a).

Definition is_upper_az (c : char) : bool := in_range 65 90 c.    (* [A-Z] *)
Definition is_lower_az (c : char) : bool := in_range 97 122 c.   (* [a-z] *)
Definition is_digit (c : char) : bool := in_range 48 57 c.       (* [0-9], \d *)

(** [[a-z]] under the [i] flag: a code unit matches when its canonical
    (upper-cased) form is one of A-Z; code units of 128 and above never
    canonicalize into ASCII, so the class is exactly [A-Za-z]. *)
Definition is_alpha_ci (c : char) : bool := is_upper_az c || is_lower_az c.

(** [\w] and [\W] *)
Definition is_word (c : char) : bool :=
  is_upper_az c || is_lower_az c || is_digit c || (c =? 95).
Definition is_nonword (c : char) : bool := negb (is_word c).

(** White space and line terminators of ECMAScript: [\s], and what
    [String.prototype.trim] strips. *)
Definition is_space (c : char) : bool :=
  in_range 9 13 c || (c =? 32) || (c =? 160) || (c =? 5760)
  || in_range 8192 8202 c || (c =? 8232) || (c =? 8233) || (c =? 8239)
  || (c =? 8287) || (c =? 12288) || (c =? 65279).
Definition is_nonspace (c : char) : bool := negb (is_space c).   (* \S *)

(** ** Regular expressions *)

Inductive regex : Type :=
| Eps
| Chr (p : char -> bool)
| Seq (r1 r2 : regex)
| Alt (r1 r2 : regex)
| Star (r : regex)
| Group (n : nat) (r : regex)
| Bol
| Eol
| WordB
| NotWordB
| Look (r : regex).

Definition Plus (r : regex) : regex := Seq r (Star r).
Definition Opt (r : regex) : regex := Alt r Eps.

Fixpoint seqs (rs : list regex) : regex :=
  match rs with
  | [] => Eps
  | [r] => r
  | r :: t => Seq r (seqs t)
  end.

Fixpoint groups (r : regex) : list nat :=
  match r with
  | Seq r1 r2 | Alt r1 r2 => groups r1 ++ groups r2
  | Star r1 | Look r1 => groups r1
  | Group n r1 => n :: groups r1
  | _ => []
  end.

(** The matcher state: the number of code units matched so far (the end
    index relative to the start of the attempt), the code unit before the
    current position ([None] at index 0 of the input), the input from the
    current position on, and the captures. *)
Definition captures := nat -> option jsstring.

Record mstate : Type := MState {
  idx : nat;
  prev : option char;
  rest : jsstring;
  caps : captures
}.

Definition cont := mstate -> option mstate.

Definition no_caps : captures := fun _ => None.

Definition set_cap (n : nat) (s : jsstring) (cs : captures) : captures :=
  fun i => if Nat.eqb i n then Some s else cs i.

Definition clear_caps (gs : list nat) (cs : captures) : captures :=
  fun i => if existsb (Nat.eqb i) gs then None else cs i.

Definition with_caps (st : mstate) (cs : captures) : mstate :=
  MState (idx st) (prev st) (rest st) cs.

Definition word_before (st : mstate) : bool :=
  match prev st with Some c => is_word c | None => false end.
Definition word_after (st : mstate) : bool :=
  match rest st with c :: _ => is_word c | [] => false end.
Definition at_boundary (st : mstate) : bool :=
  xorb (word_before st) (word_after st).

(** The text between two states of one match. *)
Definition consumed (st st' : mstate) : jsstring :=
  firstn (idx st' - idx st) (rest st).

(** Greedy [r*]: an iteration that consumes nothing is rejected, and the
    captures of the body are reset when an iteration starts.  At most
    [length (rest st)] iterations can make progress. *)
Fixpoint star_loop (body : cont -> cont) (gs : list nat) (k : cont)
    (fuel : nat) (st : mstate) : option mstate :=
  match fuel with
  | O => k st
  | S f =>
    match body
            (fun st' =>
               if (idx st <? idx st')%nat
               then star_loop body gs k f st' else None)
            (with_caps st (clear_caps gs (caps st))) with
    | Some x => Some x
    | None => k st
    end
  end.

Fixpoint m (r : regex) (k : cont) (st : mstate) {struct r} : option mstate :=
  match r with
  | Eps => k st
  | Chr p =>
    match rest st with
    | c :: t => if p c then k (MState (S (idx st)) (Some c) t (caps st)) else None
    | [] => None
    end
  | Seq r1 r2 => m r1 (m r2 k) st
  | Alt r1 r2 =>
    match m r1 k st with
    | Some x => Some x
    | None => m r2 k st
    end
  | Star r1 => star_loop (m r1) (groups r1) k (List.length (rest st)) st
  | Group n r1 =>
    m r1 (fun st' => k (with_caps st' (set_cap n (consumed st st') (caps st'))))
      st
  | Bol => match prev st with None => k st | Some _ => None end
  | Eol => match rest st with [] => k st | _ :: _ => None end
  | WordB => if at_boundary st then k st else None
  | NotWordB => if at_boundary st then None else k st
  | Look r1 =>
    match m r1 Some st with
    | Some st' => k (with_caps st (caps st'))
    | None => None
    end
  end.

(** One match attempt at the current position; on success [idx] of the
    result is the length of the match. *)
Definition exec (r : regex) (p : option char) (s : jsstring) : option mstate :=
  m r Some (MState 0 p s no_caps).

(** ** [String.prototype.replace] *)

Definition replacer := jsstring -> captures -> jsstring.

Definition cap (cs : captures) (n : nat) : jsstring :=
  match cs n with Some s => s | None => [] end.

(** Replacement templates: literal text and [$n] references. *)
Inductive titem : Type :=
| Lit (s : jsstring)
| Ref (n : nat).

Definition subst (tmpl : list titem) : replacer :=
  fun _ cs =>
    flat_map (fun it => match it with Lit s => s | Ref n => cap cs n end) tmpl.

(** Replacement with a global regular expression, scanning from left to
    right.  [skip] counts the code units of the last match that are still to
    be passed over; after an empty match the scan moves on by one. *)
Fixpoint replace_from (r : regex) (f : replacer) (skip : nat)
    (p : option char) (s : jsstring) {struct s} : jsstring :=
  match skip with
  | S n =>
    match s with
    | [] => []
    | c :: t => replace_from r f n (Some c) t
    end
  | O =>
    match exec r p s with
    | Some st' =>
      f (firstn (idx st') s) (caps st') ++
      match s with
      | [] => []
      | c :: t =>
        match idx st' with
        | O => c :: replace_from r f O (Some c) t
        | S n' => replace_from r f n' (Some c) t
        end
      end
    | None =>
      match s with
      | [] => []
      | c :: t => c :: replace_from r f O (Some c) t
      end
    end
  end.

Definition replace_g (r : regex) (f : replacer) (s : jsstring) : jsstring :=
  replace_from r f O None s.

(** Replacement with a regular expression without the [g] flag: the first
    match only. *)
Fixpoint replace_first_from (r : regex) (f : replacer)
    (p : option char) (s : jsstring) {struct s} : jsstring :=
  match exec r p s with
  | Some st' => f (firstn (idx st') s) (caps st') ++ skipn (idx st') s
  | None =>
    match s with
    | [] => []
    | c :: t => c :: replace_first_from r f (Some c) t
    end
  end.

Definition replace_1 (r : regex) (f : replacer) (s : jsstring) : jsstring :=
  replace_first_from r f None s.

(** [RegExp.prototype.test] *)
Fixpoint test_from (r : regex) (p : option char) (s : jsstring) : bool :=
  match exec r p s with
  | Some _ => true
  | None =>
    match s with
    | [] => false
    | c :: t => test_from r (Some c) t
    end
  end.

Definition test (r : regex) (s : jsstring) : bool := test_from r None s.

(** ** [src/mutator.ts]: [quotes] *)

Definition lit (s : jsstring) : regex := seqs (map (fun a => Chr (chr_is a)) s).

Definition not_any (l : list char) (c : char) : bool :=
  negb (existsb (N.eqb c) l).
Definition any_of (l : list char) (c : char) : bool := existsb (N.eqb c) l.

Definition is_nondigit (c : char) : bool := negb (is_digit c).

(** The rule list of [quotes], in source order.  The rules with the [i] flag
    use [is_alpha_ci] for [[a-z]]; the other classes and literals of these
    rules hold no cased code unit, so the flag does not change them.  The
    comments quote the source patterns, with [\x22] for the ASCII double
    quote and [{0,}] for a star that stands before a closing parenthesis. *)

(* /'''/g *)
Definition re_triple_prime : regex := lit [c_apos; c_apos; c_apos].
(* /(\W|^)\x22(\w)/g *)
Definition re_begin_dq : regex :=
  seqs [Group 1 (Alt (Chr is_nonword) Bol); Chr (chr_is c_dquote);
        Group 2 (Chr is_word)].
(* /(“[^\x22]{0,})\x22([^\x22]*$|[^“\x22]*“)/g *)
Definition re_end_dq : regex :=
  seqs [Group 1 (Seq (Chr (chr_is c_ldquo)) (Star (Chr (chr_not c_dquote))));
        Chr (chr_is c_dquote);
        Group 2 (Alt (Seq (Star (Chr (chr_not c_dquote))) Eol)
                     (Seq (Star (Chr (not_any [c_ldquo; c_dquote])))
                          (Chr (chr_is c_ldquo))))].
(* /([^0-9])\x22/g *)
Definition re_remaining_dq : regex :=
  Seq (Group 1 (Chr is_nondigit)) (Chr (chr_is c_dquote)).
(* /''/g *)
Definition re_two_apos : regex := lit [c_apos; c_apos].
(* /(\W|^)'(\S)/g *)
Definition re_begin_sq : regex :=
  seqs [Group 1 (Alt (Chr is_nonword) Bol); Chr (chr_is c_apos);
        Group 2 (Chr is_nonspace)].
(* /([a-z])'([a-z])/gi *)
Definition re_possession : regex :=
  seqs [Group 1 (Chr is_alpha_ci); Chr (chr_is c_apos);
        Group 2 (Chr is_alpha_ci)].
(* /(‘)([0-9]{2}[^’]{0,})(‘([^0-9]|$)|$|’[a-z])/gi *)
Definition re_abbrev_year : regex :=
  seqs [Group 1 (Chr (chr_is c_lsquo));
        Group 2 (seqs [Chr is_digit; Chr is_digit;
                       Star (Chr (chr_not c_rsquo))]);
        Group 3 (Alt (Seq (Chr (chr_is c_lsquo))
                          (Group 4 (Alt (Chr is_nondigit) Eol)))
                     (Alt Eol
                          (Seq (Chr (chr_is c_rsquo)) (Chr is_alpha_ci))))].
(* /((‘[^']{0,})|[a-z])'([^0-9]|$)/gi *)
Definition re_end_sq : regex :=
  seqs [Group 1 (Alt (Group 2 (Seq (Chr (chr_is c_lsquo))
                                   (Star (Chr (chr_not c_apos)))))
                     (Chr is_alpha_ci));
        Chr (chr_is c_apos);
        Group 3 (Alt (Chr is_nondigit) Eol)].
(* /(\B|^)‘(?=([^‘’]*’\b)*([^‘’]*\B\W[‘’]\b|[^‘’]*$))/gi *)
Definition re_backwards : regex :=
  seqs [Group 1 (Alt NotWordB Bol);
        Chr (chr_is c_lsquo);
        Look (Seq
          (Star (Group 2 (seqs [Star (Chr (not_any [c_lsquo; c_rsquo]));
                                Chr (chr_is c_rsquo); WordB])))
          (Group 3
             (Alt (seqs [Star (Chr (not_any [c_lsquo; c_rsquo]));
                         NotWordB; Chr is_nonword;
                         Chr (any_of [c_lsquo; c_rsquo]); WordB])
                  (Seq (Star (Chr (not_any [c_lsquo; c_rsquo]))) Eol))))].
(* /\x22/g *)
Definition re_dq : regex := Chr (chr_is c_dquote).
(* /'/g *)
Definition re_sq : regex := Chr (chr_is c_apos).
(* /--/g *)
Definition re_dashes : regex := lit [c_hyphen; c_hyphen].
(* /\.\.+/g *)
Definition re_dots : regex := Seq (Chr (chr_is c_dot)) (Plus (Chr (chr_is c_dot))).

Definition quote_rules : list (regex * list titem) :=
  [ (re_triple_prime, [Lit [c_tprime]]);
    (re_begin_dq, [Ref 1; Lit [c_ldquo]; Ref 2]);
    (re_end_dq, [Ref 1; Lit [c_rdquo]; Ref 2]);
    (re_remaining_dq, [Ref 1; Lit [c_rdquo]]);
    (re_two_apos, [Lit [c_dprime]]);
    (re_begin_sq, [Ref 1; Lit [c_lsquo]; Ref 2]);
    (re_possession, [Ref 1; Lit [c_rsquo]; Ref 2]);
    (re_abbrev_year, [Lit [c_rsquo]; Ref 2; Ref 3]);
    (re_end_sq, [Ref 1; Lit [c_rsquo]; Ref 3]);
    (re_backwards, [Ref 1; Lit [c_rsquo]]);
    (re_dq, [Lit [c_dprime]]);
    (re_sq, [Lit [c_prime]]);
    (re_dashes, [Lit [c_emdash]]);
    (re_dots, [Lit [c_ellipsis]]) ].

Definition apply_rule (subject : jsstring) (rule : regex * list titem)
  : jsstring :=
  replace_g (fst rule) (subst (snd rule)) subject.

Definition quotes (value : jsstring) : jsstring :=
  fold_left apply_rule quote_rules value.

(** ** [src/mutator.ts]: [proper] *)

(** [String.prototype.toUpperCase] and [toLowerCase], code unit by code unit.
    The tables are those of Unicode for U+0000 to U+00FF (sharp s becomes SS,
    y with diaeresis becomes U+0178, the micro sign becomes U+039C; the
    multiplication and division signs have no case) and for U+0178 and U+2019.
    [proper] applies them only to tokens over A-Z, a-z, 0-9, U+00C0 to U+00FF
    and U+2019 and to the images of such tokens; the other code units, which
    never reach them, are left as they are. *)
Definition upper_cu (c : char) : jsstring :=
  if is_lower_az c then [c - 32]
  else if c =? 181 then [924]
  else if c =? 223 then [83; 83]
  else if c =? 247 then [c]
  else if in_range 224 254 c then [c - 32]
  else if c =? 255 then [376]
  else [c].

Definition lower_cu (c : char) : jsstring :=
  if is_upper_az c then [c + 32]
  else if c =? 215 then [c]
  else if in_range 192 222 c then [c + 32]
  else if c =? 376 then [255]
  else [c].

Definition toUpperCase (s : jsstring) : jsstring := flat_map upper_cu s.
Definition toLowerCase (s : jsstring) : jsstring := flat_map lower_cu s.

(** [value.charAt(0).toUpperCase() + value.slice(1)] *)
Definition ucFirst (value : jsstring) : jsstring :=
  toUpperCase (firstn 1 value) ++ skipn 1 value.

(** [String.prototype.trim] *)
Fixpoint trim_start (s : jsstring) : jsstring :=
  match s with
  | c :: t => if is_space c then trim_start t else s
  | [] => []
  end.

Fixpoint trim_end (s : jsstring) : jsstring :=
  match s with
  | [] => []
  | c :: t =>
    match trim_end t with
    | [] => if is_space c then [] else [c]
    | t' => c :: t'
    end
  end.

Definition trim (s : jsstring) : jsstring := trim_end (trim_start s).

(** [/[A-Z]/.test(value) && /[a-z]/.test(value)] *)
Definition hasBothUpperAndLower (value : jsstring) : bool :=
  test (Chr is_upper_az) value && test (Chr is_lower_az) value.

(** [Array.prototype.indexOf] on an array of strings. *)
Definition str_eqb (a b : jsstring) : bool :=
  if list_eq_dec N.eq_dec a b then true else false.

Fixpoint indexOf_from (i : Z) (l : list jsstring) (x : jsstring) : Z :=
  match l with
  | [] => (-1)%Z
  | y :: t => if str_eqb y x then i else indexOf_from (i + 1)%Z t x
  end.

Definition indexOf (l : list jsstring) (x : jsstring) : Z := indexOf_from 0%Z l x.

Definition roman_suffixes : list jsstring :=
  [ [105; 105]; [105; 105; 105]; [105; 118]; [118] ].    (* ii iii iv v *)
Definition particles : list jsstring :=
  [ [100; 105; 116]; [100; 101]; [118; 111; 110] ].      (* dit de von *)

(* /^(ma?c|[od]’)(\S{2,}$)/i *)
Definition re_prefix : regex :=
  seqs [Bol;
        Group 1 (Alt (seqs [Chr (any_of [109; 77]); Opt (Chr (any_of [97; 65]));
                            Chr (any_of [99; 67])])
                     (Seq (Chr (any_of [111; 79; 100; 68]))
                          (Chr (chr_is c_rsquo))));
        Group 2 (seqs [Chr is_nonspace; Chr is_nonspace;
                       Star (Chr is_nonspace); Eol])].

Definition properNameCapitalizer (mixedCase : bool) (match_ : jsstring)
  : jsstring :=
  let lowerCaseMatch := toLowerCase match_ in
  let short := (List.length match_ <=? 3)%nat in
  if (List.length match_ =? 1)%nat then toUpperCase match_
  else if short && (indexOf roman_suffixes lowerCaseMatch >? -1)%Z
  then toUpperCase match_
  else if short && (indexOf particles lowerCaseMatch >? -1)%Z
  then lowerCaseMatch
  else if short && mixedCase then match_
  else
    replace_1 re_prefix
      (fun _ cs => ucFirst (cap cs 1) ++ ucFirst (cap cs 2))
      (ucFirst lowerCaseMatch).

(* /[^A-Za-z0-9\u00C0-\u00FF’ ,-]/g *)
Definition is_allowed (c : char) : bool :=
  is_upper_az c || is_lower_az c || is_digit c || in_range 192 255 c
  || (c =? c_rsquo) || (c =? c_space) || (c =? c_comma) || (c =? c_hyphen).
Definition re_restrict : regex := Chr (fun c => negb (is_allowed c)).
(* /  +/g *)
Definition re_spaces : regex := Seq (Chr (chr_is c_space)) (Plus (Chr (chr_is c_space))).
(* /([^ ,-]+)/g *)
Definition is_token_char (c : char) : bool :=
  not_any [c_space; c_comma; c_hyphen] c.
Definition re_token : regex := Group 1 (Plus (Chr is_token_char)).

Definition proper (value : jsstring) : jsstring :=
  replace_g re_token
    (fun match_ _ => properNameCapitalizer (hasBothUpperAndLower value) match_)
    (trim
       (replace_g re_spaces (subst [Lit [c_space]])
          (replace_g re_restrict (subst [Lit [c_space]]) value))).

(** ** [src/index.ts]: the coercion pipeline *)

Section CoerceModel.

(** Function objects are kept abstract: [call f v] is the completion of
    applying the function object [f] to the argument [v]. *)
Variable fn : Type.

Inductive value : Type :=
| VUndefined
| VNull
| VBoolean (b : bool)
| VNumber (z : Z)
| VString (s : jsstring)
| VError (name message : jsstring)   (* an instance of Error or a subclass *)
| VObject (id : nat)                 (* any other object *)
| VFunction (f : fn).

(** A call returns a value or throws one. *)
Inductive completion : Type :=
| Return (v : value)
| Throw (v : value).

Variable call : fn -> value -> completion.

Inductive jstype : Type :=
| TyUndefined | TyObject | TyBoolean | TyNumber | TyString | TyFunction.

Definition typeof (v : value) : jstype :=
  match v with
  | VUndefined => TyUndefined
  | VNull => TyObject
  | VBoolean _ => TyBoolean
  | VNumber _ => TyNumber
  | VString _ => TyString
  | VError _ _ => TyObject
  | VObject _ => TyObject
  | VFunction _ => TyFunction
  end.

Definition jstype_eqb (a b : jstype) : bool :=
  match a, b with
  | TyUndefined, TyUndefined | TyObject, TyObject | TyBoolean, TyBoolean
  | TyNumber, TyNumber | TyString, TyString | TyFunction, TyFunction => true
  | _, _ => false
  end.

(** [v instanceof Error] *)
Definition instanceofError (v : value) : bool :=
  match v with
  | VError _ _ => true
  | _ => false
  end.

(** [otherwise(error)], for an [otherwise] whose [typeof] is function. *)
Definition apply_value (v arg : value) : completion :=
  match v with
  | VFunction f => call f arg
  | _ => Throw (VError (js "TypeError") (js "not a function"))
  end.

(** [pipe(value, functions, index)]: the recursion on [index] stops at
    [functions.length]; [n] counts the stages that are left. *)
Fixpoint pipe_stages (n : nat) (v : value) (functions : list fn)
    (index : nat) : completion :=
  match n with
  | O => Return v
  | S n' =>
    match nth_error functions index with
    | Some f =>
      match call f v with
      | Return newValue => pipe_stages n' newValue functions (S index)
      | Throw e => Throw e
      end
    | None => Return v
    end
  end.

Definition pipe (v : value) (functions : list fn) (index : nat)
  : completion :=
  pipe_stages (List.length functions - index) v functions index.

Definition handleFailure (otherwise error : value) : completion :=
  if jstype_eqb (typeof otherwise) TyFunction then
    match apply_value otherwise error with
    | Return thrown => Throw thrown
    | Throw e => Throw e
    end
  else if jstype_eqb (typeof otherwise) TyObject && instanceofError otherwise
  then Throw otherwise
  else Return otherwise.

(** [coerce(value).to(...sanitizers).or(otherwise)] *)
Definition coerce_to_or (v : value) (sanitizers : list fn)
    (otherwise : value) : completion :=
  match pipe v sanitizers 0 with
  | Return result => Return result
  | Throw error => handleFailure otherwise error
  end.

End CoerceModel.

Arguments VUndefined {fn}.
Arguments VNull {fn}.
Arguments VBoolean {fn} b.
Arguments VNumber {fn} z.
Arguments VString {fn} s.
Arguments VError {fn} name message.
Arguments VObject {fn} id.

(** Two function objects for the examples: the validator [nonEmpty] of
    [src/validator.ts] and an error factory as in the README. *)
Inductive demo_fn : Type := NonEmpty | ErrorFactory.

Definition demo_call (f : demo_fn) (v : value demo_fn) : completion demo_fn :=
  match f with
  | NonEmpty =>
    match v with
    | VString [] => Throw (VError (js "Error") (js "Empty string"))
    | _ => Return v
    end
  | ErrorFactory =>
    match v with
    | VError _ message => Return (VError (js "CustomError") message)
    | _ => Return (VError (js "CustomError") [])
    end
  end.

(** ** [src/mutator.ts]: the other mutators *)

(** The result of a function that may throw: the value returned, or the
    error thrown, given by the name of its constructor and its message. *)
Inductive outcome (A : Type) : Type :=
| Ok (a : A)
| Err (name message : jsstring).

Arguments Ok {A} a.
Arguments Err {A} name message.

(* /[\\|\x22;/?<>()*[\]{}=`\t\r\n]/g *)
Definition is_dangerous (c : char) : bool :=
  any_of [92; 124; 34; 59; 47; 63; 60; 62; 40; 41; 42; 91; 93; 123; 125; 61;
          96; 9; 13; 10] c.

Definition safe (value : jsstring) : jsstring :=
  replace_g (Chr is_dangerous) (subst []) value.

(* /[\u00A0\u1680\u180E\u2000-\u200B\u202F\u205F\u3000\uFEFF]/g *)
Definition is_irregular_space (c : char) : bool :=
  (c =? 160) || (c =? 5760) || (c =? 6158) || in_range 8192 8203 c
  || (c =? 8239) || (c =? 8287) || (c =? 12288) || (c =? 65279).

(* /\s+/g *)
Definition re_whitespace : regex := Plus (Chr is_space).

Definition spaces (value : jsstring) : jsstring :=
  replace_g re_whitespace (subst [Lit [c_space]])
    (replace_g (Chr is_irregular_space) (subst [Lit [c_space]]) value).

(** [nonempty] of the validators: the empty string is refused. *)
Definition nonempty (value : jsstring) : outcome jsstring :=
  match value with
  | [] => Err (js "TypeError") (js "Empty string")
  | _ :: _ => Ok value
  end.

(** [nonempty(value.toLowerCase().replace(/\s+/g, ''))] *)
Definition email (value : jsstring) : outcome jsstring :=
  nonempty (replace_g re_whitespace (subst []) (toLowerCase value)).

(* /[^\d]/g *)
Definition digits (value : jsstring) : jsstring :=
  replace_g (Chr is_nondigit) (subst []) value.

(* /^[01]+/ *)
Definition re_leading_01 : regex := Seq Bol (Plus (Chr (any_of [48; 49]))).

Definition phone (value : jsstring) : outcome jsstring :=
  let onlyDigits := replace_1 re_leading_01 (subst []) (digits value) in
  if (List.length onlyDigits <? 10)%nat
  then Err (js "TypeError") (js "Invalid US phone number.")
  else Ok onlyDigits.

Definition phone10 (value : jsstring) : outcome jsstring :=
  match phone value with
  | Err name message => Err name message
  | Ok valid =>
    if negb (List.length valid =? 10)%nat
    then Err (js "TypeError") (js "Invalid US 10-digit phone number.")
    else Ok valid
  end.

(** [\d{n}] *)
Definition digits_n (n : nat) : regex := seqs (repeat (Chr is_digit) n).

(* /(\d{3})(\d{3})(\d{4})/ *)
Definition re_phone10 : regex :=
  seqs [Group 1 (digits_n 3); Group 2 (digits_n 3); Group 3 (digits_n 4)].
(* /(\d{3})(\d{3})(\d{4})(\d+)/ *)
Definition re_phone_ext : regex :=
  seqs [Group 1 (digits_n 3); Group 2 (digits_n 3); Group 3 (digits_n 4);
        Group 4 (Plus (Chr is_digit))].

(* '($1) $2-$3' and '($1) $2-$3 ext $4' *)
Definition tmpl_phone10 : list titem :=
  [Lit [40]; Ref 1; Lit [41; 32]; Ref 2; Lit [45]; Ref 3].
Definition tmpl_phone_ext : list titem :=
  tmpl_phone10 ++ [Lit [32; 101; 120; 116; 32]; Ref 4].

Definition prettyPhone (value : jsstring) : outcome jsstring :=
  match phone value with
  | Err name message => Err name message
  | Ok valid =>
    if (List.length valid =? 10)%nat
    then Ok (replace_1 re_phone10 (subst tmpl_phone10) valid)
    else Ok (replace_1 re_phone_ext (subst tmpl_phone_ext) valid)
  end.

(** [digits(value).slice(0, 5)] *)
Definition postalCodeUs5 (value : jsstring) : outcome jsstring :=
  let code := firstn 5 (digits value) in
  if negb (List.length code =? 5)%nat
  then Err (js "TypeError") (js "Invalid US postal code")
  else Ok code.

(** [slice(0, end)] of strings and arrays, for an integer [end]: a negative
    [end] counts from the end. *)
Definition slice0 (A : Type) (l : list A) (e : Z) : list A :=
  let len := Z.of_nat (List.length l) in
  let to := if (e <? 0)%Z then Z.max (len + e) 0 else Z.min e len in
  firstn (Z.to_nat to) l.

(** The decimal form of an integer, as in a template literal. *)
Fixpoint uint_js (u : Decimal.uint) : jsstring :=
  match u with
  | Decimal.Nil => []
  | Decimal.D0 u' => 48 :: uint_js u'
  | Decimal.D1 u' => 49 :: uint_js u'
  | Decimal.D2 u' => 50 :: uint_js u'
  | Decimal.D3 u' => 51 :: uint_js u'
  | Decimal.D4 u' => 52 :: uint_js u'
  | Decimal.D5 u' => 53 :: uint_js u'
  | Decimal.D6 u' => 54 :: uint_js u'
  | Decimal.D7 u' => 55 :: uint_js u'
  | Decimal.D8 u' => 56 :: uint_js u'
  | Decimal.D9 u' => 57 :: uint_js u'
  end.

Definition show_int (z : Z) : jsstring :=
  match Z.to_int z with
  | Decimal.Pos u => uint_js u
  | Decimal.Neg u => c_hyphen :: uint_js u
  end.

(** The arguments of [limit]: an integer, a string, an array, or any other
    value, given by its conversion to a string. *)
Inductive limitable (A : Type) : Type :=
| LNumber (z : Z)
| LString (s : jsstring)
| LArray (l : list A)
| LOther (repr : jsstring).

Arguments LNumber {A} z.
Arguments LString {A} s.
Arguments LArray {A} l.
Arguments LOther {A} repr.

(** [limit(max)(value)], for an integer [max]. *)
Definition limit (A : Type) (max : Z) (value : limitable A)
  : outcome (limitable A) :=
  match value with
  | LNumber z => Ok (LNumber (Z.min z max))
  | LString s => Ok (LString (slice0 s max))
  | LArray l => Ok (LArray (slice0 l max))
  | LOther repr =>
    Err (js "TypeError")
        (js "Unable to apply a max of " ++ show_int max ++ js " to " ++ repr)
  end.

(** ** [src/validator.ts]: [within] *)

(** [Array.prototype.join] *)
Fixpoint join (sep : jsstring) (l : list jsstring) : jsstring :=
  match l with
  | [] => []
  | [x] => x
  | x :: t => x ++ sep ++ join sep t
  end.

(** [within(list)(value)] for strings; [list[index]] is [None] when the
    index is out of range. *)
Definition within (list : list jsstring) (value : jsstring)
  : outcome (option jsstring) :=
  let index := indexOf list value in
  if (index >=? 0)%Z then Ok (nth_error list (Z.to_nat index))
  else Err (js "Error")
           ([c_ldquo] ++ value ++ [c_rdquo] ++ js " must be one of "
            ++ join [c_comma] list).

(** ** [src/mutator.ts]: [split] *)

(** [String.prototype.split] with a regular expression.  The separator is
    tried at each position [q] after the start [p] of the current piece;
    [cur] is the text from [p] to [q], and a match that ends at [p] does not
    split.  The captures of the separator follow each piece but the last;
    [skip] counts the code units of the separator still to be passed. *)
Definition split_caps (r : regex) (cs : captures) : list (option jsstring) :=
  map cs (seq 1 (List.length (groups r))).

Fixpoint split_from (r : regex) (skip : nat) (cur : jsstring)
    (p : option char) (s : jsstring) {struct s} : list (option jsstring) :=
  match s with
  | [] => [Some cur]
  | c :: t =>
    match skip with
    | S n => split_from r n [] (Some c) t
    | O =>
      match exec r p s with
      | Some st' =>
        match idx st', cur with
        | O, [] => split_from r O [c] (Some c) t
        | O, _ :: _ =>
          Some cur :: split_caps r (caps st') ++ split_from r O [c] (Some c) t
        | S n, _ =>
          Some cur :: split_caps r (caps st') ++ split_from r n [] (Some c) t
        end
      | None => split_from r O (cur ++ [c]) (Some c) t
      end
    end
  end.

Definition split_re (r : regex) (s : jsstring) : list (option jsstring) :=
  match s with
  | [] => match exec r None [] with Some _ => [] | None => [Some []] end
  | _ :: _ => split_from r O [] None s
  end.

(** [.map(trim)]: [trim] of an undefined capture throws. *)
Fixpoint map_trim (l : list (option jsstring)) : outcome (list jsstring) :=
  match l with
  | [] => Ok []
  | None :: _ => Err (js "TypeError") (js "value is undefined")
  | Some x :: t =>
    match map_trim t with
    | Ok t' => Ok (trim x :: t')
    | Err name message => Err name message
    end
  end.

Definition is_empty (s : jsstring) : bool :=
  match s with [] => true | _ :: _ => false end.

(** [spaces(value).split(separator).map(trim).filter((item) => item !== '')] *)
Definition split (separator : regex) (value : jsstring)
  : outcome (list jsstring) :=
  match map_trim (split_re separator (spaces value)) with
  | Ok items => Ok (filter (fun item => negb (is_empty item)) items)
  | Err name message => Err name message
  end.

(* /[,\r\n\s]+/g *)
Definition is_separator (c : char) : bool :=
  (c =? c_comma) || (c =? 13) || (c =? 10) || is_space c.
Definition re_separator : regex := Plus (Chr is_separator).

(** * Vocabulary of the properties *)

Local Close Scope N_scope.
Local Open Scope nat_scope.

Definition caps_all (P : char -> Prop) (cs : captures) : Prop :=
  forall n x, cs n = Some x -> Forall P x.

Definition chars_ok (P : char -> Prop) (st : mstate) : Prop :=
  Forall P (rest st) /\ caps_all P (caps st).

(** A replacer that maps matches and captures over [P] to text over [Q]. *)
Definition replacer_ok (P Q : char -> Prop) (f : replacer) : Prop :=
  forall mt cs, Forall P mt -> caps_all P cs -> Forall Q (f mt cs).

(** [needs Q r]: every match of [r] reads a code unit of class [Q]. *)
Fixpoint needs (Q : char -> bool) (r : regex) : Prop :=
  match r with
  | Chr p => forall c, p c = true -> Q c = true
  | Seq r1 r2 => needs Q r1 \/ needs Q r2
  | Alt r1 r2 => needs Q r1 /\ needs Q r2
  | Group _ r1 => needs Q r1
  | Look r1 => needs Q r1
  | _ => False
  end.

Definition free_of (Q : char -> bool) (s : jsstring) : Prop :=
  Forall (fun c => Q c = false) s.

(** Substring tests used to state the properties. *)
Fixpoint starts_with (pat s : jsstring) : bool :=
  match pat, s with
  | [], _ => true
  | a :: pat', c :: s' => N.eqb c a && starts_with pat' s'
  | _ :: _, [] => false
  end.

Fixpoint contains (pat s : jsstring) : bool :=
  starts_with pat s ||
  match s with
  | [] => false
  | _ :: t => contains pat t
  end.

Definition is_straight (c : char) : bool := any_of [c_apos; c_dquote] c.

Definition is_quote_like (c : char) : bool :=
  any_of [c_apos; c_dquote; c_lsquo; c_rsquo; c_ldquo; c_rdquo;
          c_prime; c_dprime; c_tprime] c.

(** The code units that the first twelve rules of [quotes] look for. *)
Definition is_trigger (c : char) : bool := any_of [c_apos; c_dquote; c_lsquo] c.

Definition to_dprime (c : char) : char := if N.eqb c c_dquote then c_dprime else c.
Definition to_prime (c : char) : char := if N.eqb c c_apos then c_prime else c.

Definition not_straight (c : char) : Prop := c <> c_apos /\ c <> c_dquote.

(** [flips a b]: [b] is [a], or [a] is U+2018 and [b] is U+2019. *)
Definition flips (a b : char) : Prop :=
  a = b \/ (a = c_lsquo /\ b = c_rsquo).

Definition year_rule : regex * list titem :=
  (re_abbrev_year, [Lit [c_rsquo]; Ref 2; Ref 3]).
Definition end_sq_rule : regex * list titem :=
  (re_end_sq, [Ref 1; Lit [c_rsquo]; Ref 3]).
Definition backwards_rule : regex * list titem :=
  (re_backwards, [Ref 1; Lit [c_rsquo]]).

(** The class that the restriction step keeps, and the class of the output:
    U+0178 is the capital of U+00FF. *)
Definition in_class (c : char) : Prop :=
  (65 <= c <= 90 \/ 97 <= c <= 122 \/ 48 <= c <= 57 \/ 192 <= c <= 255
   \/ c = 8217 \/ c = 32 \/ c = 44 \/ c = 45)%N.

Definition out_class (c : char) : Prop := in_class c \/ c = 376%N.

Fixpoint lead (p : char -> bool) (s : jsstring) : nat :=
  match s with
  | c :: t => if p c then S (lead p t) else 0
  | [] => 0
  end.

(** The state after the longest run of [p]. *)
Fixpoint run_state (p : char -> bool) (i : nat) (pv : option char)
    (s : jsstring) (cs : captures) : mstate :=
  match s with
  | c :: t => if p c then run_state p (S i) (Some c) t cs else MState i pv s cs
  | [] => MState i pv [] cs
  end.

Definition is_sp : char -> bool := chr_is c_space.

(** An automaton over the spacing of a string: [b] tells whether the
    previous code unit is a space (or the string starts here), [fin] what
    is accepted at the end. *)
Fixpoint spaced (fin : bool -> bool) (b : bool) (s : jsstring) : bool :=
  match s with
  | [] => fin b
  | c :: t =>
    if N.eqb c c_space then negb b && spaced fin true t
    else spaced fin false t
  end.

(** No two adjacent spaces (and no leading space when [b] is true). *)
Definition no_double := spaced (fun _ => true).
(** Moreover no trailing space, and the string is not empty when [b] is
    true. *)
Definition tidy := spaced negb.

Definition well_spaced (s : jsstring) : Prop :=
  (forall t, s <> c_space :: t)
  /\ (forall t, s <> t ++ [c_space])
  /\ (forall a b, s <> a ++ [c_space; c_space] ++ b).

(** The stages applied in order, each to the result of the one before, up
    to the first that throws. *)
Fixpoint run_stages (fn : Type) (call : fn -> value fn -> completion fn)
    (functions : list fn) (v : value fn) : completion fn :=
  match functions with
  | [] => Return v
  | f :: t =>
    match call f v with
    | Return newValue => run_stages call t newValue
    | Throw e => Throw e
    end
  end.

(** The digits of [value] after its leading zeros and ones. *)
Definition phone_digits (value : jsstring) : jsstring :=
  skipn (lead (any_of [48%N; 49%N]) (filter is_digit value))
        (filter is_digit value).

(** The form [(NNN) NNN-NNNN] of ten digits, followed by [ ext N...] when
    more digits are left. *)
Definition pretty_form (d : jsstring) : jsstring :=
  [40%N] ++ firstn 3 d ++ [41%N; 32%N] ++ firstn 3 (skipn 3 d) ++ [45%N]
  ++ firstn 4 (skipn 6 d)
  ++ match skipn 10 d with
     | [] => []
     | _ :: _ => [32%N; 101%N; 120%N; 116%N; 32%N] ++ skipn 10 d
     end.

(** Every run of code units of the class [p] is replaced by [l]; [inrun]
    tells whether the code unit before belongs to a run. *)
Fixpoint squeeze (p : char -> bool) (l : jsstring) (inrun : bool)
    (s : jsstring) : jsstring :=
  match s with
  | [] => []
  | c :: t =>
    if p c then (if inrun then [] else l) ++ squeeze p l true t
    else c :: squeeze p l false t
  end.

(** The irregular spaces become U+0020. *)
Definition regular (c : char) : char :=
  if is_irregular_space c then c_space else c.

(** White space, or one of the irregular spaces. *)
Definition space_like (c : char) : bool := is_space c || is_irregular_space c.

(** The pieces of [s] between the runs of code units of the class [p]:
    [cur] is the piece read so far, [inrun] tells whether the code unit
    before belongs to a run. *)
Fixpoint fields (p : char -> bool) (cur : jsstring) (inrun : bool)
    (s : jsstring) : list jsstring :=
  match s with
  | [] => [cur]
  | c :: t =>
    if p c then (if inrun then fields p [] true t else cur :: fields p [] true t)
    else fields p (cur ++ [c]) false t
  end.

(** A separator of the default pattern of [split], or an irregular space. *)
Definition sep_like (c : char) : bool := is_separator c || is_irregular_space c.

(** The prefixes after [ucFirst]: Mc, Mac, O’ and D’. *)
Definition name_prefixes : list jsstring :=
  [ [77%N; 99%N]; [77%N; 97%N; 99%N]; [79%N; c_rsquo]; [68%N; c_rsquo] ].

(** * Properties of the matcher *)

(** ** State invariants

    A property of matcher states that survives one consumed code unit and the
    capture updates of the groups in [G] holds of every state a continuation
    is entered with. *)
Section Invariant.

Variable I : mstate -> Prop.
Variable G : nat -> Prop.

Hypothesis I_step : forall st c t,
  I st -> rest st = c :: t -> I (MState (S (idx st)) (Some c) t (caps st)).
Hypothesis I_clear : forall st gs,
  (forall n, In n gs -> G n) -> I st ->
  I (with_caps st (clear_caps gs (caps st))).
Hypothesis I_set : forall st0 st n,
  G n -> I st0 -> I st ->
  I (with_caps st (set_cap n (consumed st0 st) (caps st))).
Hypothesis I_look : forall st st',
  I st -> I st' -> I (with_caps st (caps st')).

Lemma star_loop_inv (body : cont -> cont) gs :
  (forall n, In n gs -> G n) ->
  (forall k st res, I st -> body k st = Some res ->
                    exists st', I st' /\ k st' = Some res) ->
  forall fuel k st res,
    I st -> star_loop body gs k fuel st = Some res ->
    exists st', I st' /\ k st' = Some res.
Proof.
  intros Hgs Hbody fuel.
  induction fuel as [|f IH]; intros k st res HI H; simpl in H.
  - eauto.
  - destruct (body _ _) as [x|] eqn:E.
    + inversion H; subst x; clear H.
      apply Hbody in E; [|apply I_clear; assumption].
      destruct E as (st' & HI' & E).
      destruct (idx st <? idx st'); [|discriminate].
      eapply IH; eassumption.
    + eauto.
Qed.

Lemma m_inv r :
  (forall n, In n (groups r) -> G n) ->
  forall k st res,
    I st -> m r k st = Some res -> exists st', I st' /\ k st' = Some res.
Proof.
  induction r as [|p|r1 IH1 r2 IH2|r1 IH1 r2 IH2|r1 IH1|n r1 IH1| | | | |r1 IH1];
    intros Hg k st res HI H; simpl in H, Hg.
  - eauto.
  - destruct (rest st) as [|c t] eqn:E; [discriminate|].
    destruct (p c); [|discriminate]. eauto.
  - apply IH1 in H; auto.
    + destruct H as (st1 & HI1 & H). apply IH2 in H; auto.
      intros n Hn. apply Hg, in_or_app. auto.
    + intros n Hn. apply Hg, in_or_app. auto.
  - destruct (m r1 k st) as [x|] eqn:E.
    + inversion H; subst x. apply IH1 in E; auto.
      intros n Hn. apply Hg, in_or_app. auto.
    + apply IH2 in H; auto.
      intros n Hn. apply Hg, in_or_app. auto.
  - eapply star_loop_inv in H; eauto.
  - apply IH1 in H; auto.
    destruct H as (st1 & HI1 & H).
    eexists; split; [|exact H]. apply I_set; auto.
  - destruct (prev st); [discriminate|]. eauto.
  - destruct (rest st); [|discriminate]. eauto.
  - destruct (at_boundary st); [|discriminate]. eauto.
  - destruct (at_boundary st); [discriminate|]. eauto.
  - destruct (m r1 Some st) as [st1|] eqn:E; [|discriminate].
    apply IH1 in E; auto.
    destruct E as (st2 & HI2 & E). inversion E; subst st2.
    eexists; split; [|exact H]. apply I_look; auto.
Qed.

Lemma m_fails r k st :
  (forall n, In n (groups r) -> G n) ->
  I st -> (forall st', I st' -> k st' = None) -> m r k st = None.
Proof.
  intros Hg HI Hk.
  destruct (m r k st) as [res|] eqn:E; [|reflexivity].
  apply m_inv in E; auto.
  destruct E as (st' & HI' & E). rewrite Hk in E; [discriminate|assumption].
Qed.

End Invariant.

(** ** Where the code units of a match come from *)

Lemma caps_all_none P : caps_all P no_caps.
Proof. intros n x H. discriminate. Qed.

Lemma Forall_firstn (P : char -> Prop) n (s : jsstring) :
  Forall P s -> Forall P (firstn n s).
Proof.
  revert s. induction n as [|n IH]; intros [|c t] H; simpl; auto.
  inversion H; subst. constructor; auto.
Qed.

Lemma Forall_skipn (P : char -> Prop) n (s : jsstring) :
  Forall P s -> Forall P (skipn n s).
Proof.
  revert s. induction n as [|n IH]; intros [|c t] H; simpl; auto.
  inversion H; subst. auto.
Qed.

Lemma m_chars (P : char -> Prop) r k st res :
  chars_ok P st -> m r k st = Some res ->
  exists st', chars_ok P st' /\ k st' = Some res.
Proof.
  intros HI H.
  apply (m_inv (chars_ok P) (fun _ => True)) with (r := r) (st := st);
    auto; clear.
  - intros st c t [Hr Hc] E. split; simpl; auto.
    rewrite E in Hr. inversion Hr; auto.
  - intros st gs _ [Hr Hc]. split; simpl; auto.
    intros n x. unfold clear_caps. destruct (existsb _ gs); [discriminate|].
    apply Hc.
  - intros st0 st n _ [Hr0 Hc0] [Hr Hc]. split; simpl; auto.
    intros i x. unfold set_cap. destruct (Nat.eqb i n).
    + intros E. inversion E; subst x. apply Forall_firstn, Hr0.
    + apply Hc.
  - intros st st' [Hr Hc] [Hr' Hc']. split; simpl; auto.
Qed.

Lemma exec_chars (P : char -> Prop) r p s st' :
  Forall P s -> exec r p s = Some st' -> caps_all P (caps st').
Proof.
  intros Hs H. unfold exec in H.
  apply (m_chars (P := P)) in H.
  - destruct H as (st1 & [_ Hc] & E). inversion E; subst st1. exact Hc.
  - split; simpl; auto using caps_all_none.
Qed.

Lemma subst_ok (P Q : char -> Prop) tmpl :
  (forall c, P c -> Q c) ->
  Forall (fun it => match it with Lit s => Forall Q s | Ref _ => True end) tmpl ->
  replacer_ok P Q (subst tmpl).
Proof.
  intros HPQ Ht mt cs _ Hc. unfold subst.
  induction Ht as [|it tl Hit _ IH]; simpl; [constructor|].
  apply Forall_app; split; [|exact IH].
  destruct it as [s|n]; [exact Hit|].
  unfold cap. destruct (cs n) as [x|] eqn:E; [|constructor].
  eapply Forall_impl; [exact HPQ|]. eapply Hc; eauto.
Qed.

Lemma replace_from_chars (P Q : char -> Prop) r f :
  (forall c, P c -> Q c) -> replacer_ok P Q f ->
  forall s skip p, Forall P s -> Forall Q (replace_from r f skip p s).
Proof.
  intros HPQ Hf s.
  induction s as [|c t IH]; intros skip p Hs.
  - destruct skip; simpl; [|constructor].
    destruct (exec r p []) as [st'|] eqn:E; [|constructor].
    rewrite app_nil_r. apply Hf.
    + apply Forall_firstn; assumption.
    + eapply exec_chars; [|exact E]; assumption.
  - inversion Hs as [|? ? Hc Ht]; subst.
    destruct skip; simpl; [|auto].
    destruct (exec r p (c :: t)) as [st'|] eqn:E.
    + apply Forall_app; split.
      * apply Hf; [apply Forall_firstn; assumption|eapply exec_chars; [|exact E]; assumption].
      * destruct (idx st'); auto.
    + auto.
Qed.

Lemma replace_g_chars (P Q : char -> Prop) r f s :
  (forall c, P c -> Q c) -> replacer_ok P Q f ->
  Forall P s -> Forall Q (replace_g r f s).
Proof. intros. eapply replace_from_chars; eauto. Qed.

Lemma replace_first_from_chars (P Q : char -> Prop) r f :
  (forall c, P c -> Q c) -> replacer_ok P Q f ->
  forall s p, Forall P s -> Forall Q (replace_first_from r f p s).
Proof.
  intros HPQ Hf s.
  induction s as [|c t IH]; intros p Hs; simpl.
  - destruct (exec r p []) as [st'|] eqn:E; [|constructor].
    apply Forall_app; split.
    + apply Hf; [apply Forall_firstn; assumption|eapply exec_chars; [|exact E]; assumption].
    + apply Forall_skipn. constructor.
  - destruct (exec r p (c :: t)) as [st'|] eqn:E.
    + apply Forall_app; split.
      * apply Hf; [apply Forall_firstn; assumption|eapply exec_chars; [|exact E]; assumption].
      * apply Forall_skipn. eapply Forall_impl; eauto.
    + inversion Hs; subst. constructor; auto.
Qed.

(** ** Rules that cannot match *)

(** A replacement leaves the subject as it is when no attempt succeeds. *)
Lemma replace_from_id r f s :
  (forall p pre suf, s = pre ++ suf -> exec r p suf = None) ->
  forall p, replace_from r f 0 p s = s.
Proof.
  induction s as [|c t IH]; intros H p; simpl.
  - rewrite (H p [] []); reflexivity.
  - rewrite (H p [] (c :: t)) by reflexivity.
    f_equal. apply IH. intros p' pre suf E.
    apply (H p' (c :: pre) suf). rewrite E. reflexivity.
Qed.

Lemma m_rest (P : char -> Prop) r k st res :
  Forall P (rest st) -> m r k st = Some res ->
  exists st', Forall P (rest st') /\ k st' = Some res.
Proof.
  intros HI H.
  apply (m_inv (fun st => Forall P (rest st)) (fun _ => True))
    with (r := r) (st := st); auto; clear.
  intros st c t Hr E. simpl. rewrite E in Hr. inversion Hr; auto.
Qed.

Lemma needs_fails Q r :
  needs Q r -> forall k st, free_of Q (rest st) -> m r k st = None.
Proof.
  induction r as [|p|r1 IH1 r2 IH2|r1 IH1 r2 IH2|r1 IH1|n r1 IH1| | | | |r1 IH1];
    simpl; intros Hn k st Hs; try contradiction.
  - destruct (rest st) as [|c t]; [reflexivity|].
    inversion Hs as [|? ? Hc Ht]; subst.
    destruct (p c) eqn:E; [|reflexivity].
    apply Hn in E. congruence.
  - destruct Hn as [Hn|Hn]; [apply IH1; assumption|].
    destruct (m r1 (m r2 k) st) as [res|] eqn:E; [|reflexivity].
    apply (m_rest (P := fun c => Q c = false)) in E; [|exact Hs].
    destruct E as (st' & Hs' & E). rewrite IH2 in E by auto. discriminate.
  - destruct Hn as [Hn1 Hn2]. rewrite IH1, IH2; auto.
  - apply IH1; assumption.
  - rewrite IH1; auto.
Qed.

Lemma free_of_suffix Q pre suf : free_of Q (pre ++ suf) -> free_of Q suf.
Proof. intros H. apply Forall_app in H. tauto. Qed.

Lemma needs_replace_id Q r f s :
  needs Q r -> free_of Q s -> replace_g r f s = s.
Proof.
  intros Hn Hs. apply replace_from_id.
  intros p pre suf E. subst s. unfold exec.
  apply needs_fails with (Q := Q); [assumption|]. simpl.
  eapply free_of_suffix; eauto.
Qed.

(** ** Single code unit patterns *)

Lemma replace_chr_from p l s :
  forall pv, replace_from (Chr p) (subst [Lit l]) 0 pv s
             = flat_map (fun c => if p c then l else [c]) s.
Proof.
  induction s as [|c t IH]; intros pv; simpl; [reflexivity|].
  unfold exec; simpl. destruct (p c); simpl.
  - rewrite app_nil_r, IH. reflexivity.
  - rewrite IH. reflexivity.
Qed.

Lemma replace_chr p l s :
  replace_g (Chr p) (subst [Lit l]) s
  = flat_map (fun c => if p c then l else [c]) s.
Proof. apply replace_chr_from. Qed.

Lemma test_chr_from p s : forall pv, test_from (Chr p) pv s = existsb p s.
Proof.
  induction s as [|c t IH]; intros pv; simpl; [reflexivity|].
  unfold exec; simpl. destruct (p c); simpl; auto.
Qed.

Lemma test_chr p s : test (Chr p) s = existsb p s.
Proof. apply test_chr_from. Qed.

(** ** Unfolding the matcher one constructor at a time *)

Lemma m_Seq r1 r2 k st : m (Seq r1 r2) k st = m r1 (m r2 k) st.
Proof. reflexivity. Qed.

Lemma m_Alt r1 r2 k st :
  m (Alt r1 r2) k st
  = match m r1 k st with Some x => Some x | None => m r2 k st end.
Proof. reflexivity. Qed.

Lemma m_Group n r k st :
  m (Group n r) k st
  = m r (fun st' => k (with_caps st' (set_cap n (consumed st st') (caps st'))))
      st.
Proof. reflexivity. Qed.

Lemma m_Bol k st :
  m Bol k st = match prev st with None => k st | Some _ => None end.
Proof. reflexivity. Qed.

Lemma m_Chr_inv p k st res :
  m (Chr p) k st = Some res ->
  exists c t, rest st = c :: t /\ p c = true
              /\ k (MState (S (idx st)) (Some c) t (caps st)) = Some res.
Proof.
  simpl. destruct (rest st) as [|c t]; [discriminate|].
  destruct (p c) eqn:E; [|discriminate]. eauto.
Qed.

(** After a first code unit the index stays positive. *)
Lemma m_idx_pos r k st res :
  1 <= idx st -> m r k st = Some res ->
  exists st', 1 <= idx st' /\ k st' = Some res.
Proof.
  intros HI H.
  apply (m_inv (fun st => 1 <= idx st) (fun _ => True))
    with (r := r) (st := st); auto; clear.
  intros st c t H _. simpl. lia.
Qed.

(** A capture outside the groups of [r] is kept by [r]. *)
Lemma m_keeps_cap (Pc : jsstring -> Prop) g r k st res :
  ~ In g (groups r) ->
  (exists x, caps st g = Some x /\ Pc x) ->
  m r k st = Some res ->
  exists st', (exists x, caps st' g = Some x /\ Pc x) /\ k st' = Some res.
Proof.
  intros Hg HI H.
  apply (m_inv (fun st => exists x, caps st g = Some x /\ Pc x)
               (fun n => n <> g))
    with (r := r) (st := st); auto.
  - intros st1 gs Hgs (x & E & Hx). exists x. split; [|exact Hx].
    simpl. unfold clear_caps.
    destruct (existsb (Nat.eqb g) gs) eqn:Eg; [|exact E].
    apply existsb_exists in Eg. destruct Eg as (n & Hn & En).
    apply Nat.eqb_eq in En. subst n. apply Hgs in Hn. congruence.
  - intros st0 st1 n Hn _ (x & E & Hx). exists x. split; [|exact Hx].
    simpl. unfold set_cap.
    destruct (Nat.eqb_spec g n) as [->|]; [congruence|exact E].
  - intros n Hn ->. contradiction.
Qed.

(** * [quotes] *)

Ltac chr_tac :=
  let c := fresh "c" in
  let H := fresh "H" in
  intros c H; unfold chr_is in H; apply N.eqb_eq in H; subst c; reflexivity.

Ltac needs_tac :=
  lazymatch goal with
  | |- _ \/ _ => (left; needs_tac) || (right; needs_tac)
  | |- _ /\ _ => split; needs_tac
  | |- forall _, _ => solve [chr_tac]
  | |- _ => fail
  end.

Lemma needs_trigger :
  Forall (fun rule => needs is_trigger (fst rule)) (firstn 12 quote_rules).
Proof.
  repeat (apply Forall_cons || apply Forall_nil); simpl; needs_tac.
Qed.

Lemma contains_suffix pat pre suf :
  contains pat (pre ++ suf) = false -> starts_with pat suf = false.
Proof.
  induction pre as [|c t IH]; simpl; intros H.
  - destruct suf; simpl in H; apply orb_false_iff in H; tauto.
  - apply orb_false_iff in H. tauto.
Qed.

Lemma dashes_id f s :
  contains [c_hyphen; c_hyphen] s = false -> replace_g re_dashes f s = s.
Proof.
  intros H. apply replace_from_id. intros p pre suf E. subst s.
  apply contains_suffix in H. unfold exec. simpl.
  destruct suf as [|a [|b t]]; simpl in *; unfold chr_is.
  - reflexivity.
  - destruct (N.eqb a c_hyphen); reflexivity.
  - destruct (N.eqb a c_hyphen); [|reflexivity].
    destruct (N.eqb b c_hyphen); [discriminate|reflexivity].
Qed.

Lemma dots_id f s :
  contains [c_dot; c_dot] s = false -> replace_g re_dots f s = s.
Proof.
  intros H. apply replace_from_id. intros p pre suf E. subst s.
  apply contains_suffix in H. unfold exec. simpl.
  destruct suf as [|a [|b t]]; simpl in *; unfold chr_is.
  - reflexivity.
  - destruct (N.eqb a c_dot); reflexivity.
  - destruct (N.eqb a c_dot); [|reflexivity].
    destruct (N.eqb b c_dot); [discriminate|reflexivity].
Qed.

Lemma free_of_existsb Q s : existsb Q s = false -> free_of Q s.
Proof.
  induction s as [|c t IH]; simpl; intros H; [constructor|].
  apply orb_false_iff in H. constructor; tauto.
Qed.

Lemma fold_rules_id Q rules s :
  Forall (fun rule => needs Q (fst rule)) rules ->
  free_of Q s -> fold_left apply_rule rules s = s.
Proof.
  intros Hr Hs. induction Hr as [|rule tl Hn _ IH]; simpl; [reflexivity|].
  unfold apply_rule at 2.
  rewrite (@needs_replace_id Q _ _ _ Hn Hs). exact IH.
Qed.

(** Text without a straight quote, an opening curly single quote, a double
    hyphen or a double period is a fixed point of [quotes]. *)
Lemma quotes_fixed t :
  existsb is_trigger t = false ->
  contains [c_hyphen; c_hyphen] t = false ->
  contains [c_dot; c_dot] t = false ->
  quotes t = t.
Proof.
  intros Ht Hh Hd. unfold quotes.
  change quote_rules with
    (firstn 12 quote_rules ++
     [(re_dashes, [Lit [c_emdash]]); (re_dots, [Lit [c_ellipsis]])]).
  rewrite fold_left_app.
  rewrite (@fold_rules_id is_trigger (firstn 12 quote_rules) t);
    [|apply needs_trigger|apply free_of_existsb; assumption].
  simpl. unfold apply_rule; simpl.
  rewrite dashes_id by assumption. apply dots_id; assumption.
Qed.

Lemma flat_map_single (g : char -> char) (p : char -> bool) l s :
  (forall c, (if p c then l else [c]) = [g c]) ->
  flat_map (fun c => if p c then l else [c]) s = map g s.
Proof.
  intros H. induction s as [|c t IH]; simpl; [reflexivity|].
  rewrite H, IH. reflexivity.
Qed.

Lemma apply_dq x : apply_rule x (re_dq, [Lit [c_dprime]]) = map to_dprime x.
Proof.
  unfold apply_rule, re_dq; simpl. rewrite replace_chr.
  apply flat_map_single. intros c. unfold chr_is, to_dprime.
  destruct (N.eqb c c_dquote); reflexivity.
Qed.

Lemma apply_sq x : apply_rule x (re_sq, [Lit [c_prime]]) = map to_prime x.
Proof.
  unfold apply_rule, re_sq; simpl. rewrite replace_chr.
  apply flat_map_single. intros c. unfold chr_is, to_prime.
  destruct (N.eqb c c_apos); reflexivity.
Qed.

Lemma quotes_split s :
  quotes s =
  fold_left apply_rule (skipn 12 quote_rules)
    (map to_prime (map to_dprime
       (fold_left apply_rule (firstn 10 quote_rules) s))).
Proof.
  unfold quotes.
  change quote_rules with
    (firstn 10 quote_rules ++
     [(re_dq, [Lit [c_dprime]]); (re_sq, [Lit [c_prime]])] ++
     skipn 12 quote_rules) at 1.
  rewrite !fold_left_app.
  change (fold_left apply_rule
            [(re_dq, [Lit [c_dprime]]); (re_sq, [Lit [c_prime]])]
            (fold_left apply_rule (firstn 10 quote_rules) s))
    with (apply_rule
            (apply_rule (fold_left apply_rule (firstn 10 quote_rules) s)
                        (re_dq, [Lit [c_dprime]]))
            (re_sq, [Lit [c_prime]])).
  rewrite apply_dq, apply_sq. reflexivity.
Qed.

Lemma primes_not_straight x :
  Forall not_straight (map to_prime (map to_dprime x)).
Proof.
  rewrite map_map. apply Forall_forall. intros c Hc.
  apply in_map_iff in Hc. destruct Hc as (a & <- & _).
  unfold to_prime, to_dprime, not_straight.
  destruct (N.eqb_spec a c_dquote) as [->|Hd]; [split; discriminate|].
  destruct (N.eqb_spec a c_apos) as [->|Ha]; [split; discriminate|].
  split; assumption.
Qed.

(** C1: on "it's the '90s" [quotes] returns "it’s the ’90s": both
    apostrophes end as U+2019; the one before 90s is first opened as U+2018
    by the beginning-quote rule and then turned into U+2019 by the
    abbreviated-year rule. *)
Theorem quotes_its_the_90s :
  quotes (js "it's the '90s") = js "it’s the ’90s"
  /\ nth 2 (quotes (js "it's the '90s")) 0%N = c_rsquo
  /\ nth 9 (quotes (js "it's the '90s")) 0%N = c_rsquo
  /\ fold_left apply_rule (firstn 7 quote_rules) (js "it's the '90s")
     = js "it’s the ‘90s"
  /\ apply_rule (js "it’s the ‘90s")
       (re_abbrev_year, [Lit [c_rsquo]; Ref 2; Ref 3])
     = js "it’s the ’90s".
Proof. repeat split; vm_compute; reflexivity. Qed.

(** C7: the output of [quotes] holds no ASCII apostrophe and no ASCII double
    quote: after the ten directional rules the two fallback rules map every
    remaining double quote to U+2033 and every remaining apostrophe to
    U+2032, and the last two rules add none. *)
Theorem quotes_no_straight_quote (s : jsstring) :
  ~ In c_apos (quotes s) /\ ~ In c_dquote (quotes s)
  /\ quotes s =
     fold_left apply_rule (skipn 12 quote_rules)
       (map to_prime (map to_dprime
          (fold_left apply_rule (firstn 10 quote_rules) s))).
Proof.
  assert (H : Forall not_straight (quotes s)).
  { rewrite quotes_split. simpl. unfold apply_rule; simpl.
    assert (Hs : forall l, Forall not_straight l ->
                 replacer_ok not_straight not_straight (subst [Lit l])).
    { intros l Hl. apply subst_ok; auto. }
    apply replace_g_chars with (P := not_straight); auto.
    - apply Hs. repeat constructor; discriminate.
    - apply replace_g_chars with (P := not_straight); auto.
      + apply Hs. repeat constructor; discriminate.
      + apply primes_not_straight. }
  rewrite Forall_forall in H.
  split; [|split].
  - intros Hin. apply H in Hin. destruct Hin as [Ha _]. apply Ha; reflexivity.
  - intros Hin. apply H in Hin. destruct Hin as [_ Hd]. apply Hd; reflexivity.
  - apply quotes_split.
Qed.

(** C8, as stated, fails: text without any quote-like character is still
    rewritten by the dash rule. *)
Lemma quotes_changes_double_hyphen :
  existsb is_quote_like (js "a--b") = false
  /\ quotes (js "a--b") = js "a—b"
  /\ quotes (js "a--b") <> js "a--b".
Proof. repeat split; try (vm_compute; reflexivity). vm_compute; discriminate. Qed.

Lemma quote_like_trigger s :
  existsb is_quote_like s = false -> existsb is_trigger s = false.
Proof.
  induction s as [|c t IH]; simpl; intros H; [reflexivity|].
  apply orb_false_iff in H. destruct H as [Hc Ht].
  rewrite (IH Ht), orb_false_r.
  unfold is_quote_like, is_trigger, any_of in *; simpl in *.
  repeat (apply orb_false_iff in Hc; destruct Hc as [? Hc]).
  repeat (apply orb_false_iff; split); assumption.
Qed.

Lemma rules_id s :
  existsb is_trigger s = false ->
  contains [c_hyphen; c_hyphen] s = false ->
  contains [c_dot; c_dot] s = false ->
  Forall (fun rule => apply_rule s rule = s) quote_rules.
Proof.
  intros Ht Hh Hd. apply free_of_existsb in Ht.
  change quote_rules with
    (firstn 12 quote_rules ++
     [(re_dashes, [Lit [c_emdash]]); (re_dots, [Lit [c_ellipsis]])]).
  apply Forall_app; split.
  - eapply Forall_impl; [|apply needs_trigger].
    intros rule Hn. unfold apply_rule.
    apply (@needs_replace_id is_trigger _ _ _ Hn Ht).
  - repeat (apply Forall_cons || apply Forall_nil); unfold apply_rule;
      cbn [fst snd]; auto using dashes_id, dots_id.
Qed.

(** C8 (amended): text without quote-like characters, without a double
    hyphen and without a double period is returned unchanged by [quotes],
    and every rule of [quotes] leaves it as it is; the empty string is
    returned as the empty string. *)
Theorem quotes_unchanged_without_quotes :
  (forall s,
     existsb is_quote_like s = false ->
     contains (js "--") s = false ->
     contains (js "..") s = false ->
     quotes s = s /\ Forall (fun rule => apply_rule s rule = s) quote_rules)
  /\ quotes [] = [].
Proof.
  split; [|reflexivity].
  intros s Hq Hh Hd. apply quote_like_trigger in Hq. split.
  - apply quotes_fixed; assumption.
  - apply rules_id; assumption.
Qed.

Lemma quotes_unchanged_witness :
  quotes (js "John Q. Public - 1993") = js "John Q. Public - 1993".
Proof.
  apply (fun H1 H2 H3 =>
           proj1 (proj1 quotes_unchanged_without_quotes
                        (js "John Q. Public - 1993") H1 H2 H3));
    vm_compute; reflexivity.
Defined.

(** ** A second run of [quotes] *)

Lemma flips_refl s : Forall2 flips s s.
Proof. induction s; constructor; auto. left. reflexivity. Qed.

Lemma flips_trans s t u :
  Forall2 flips s t -> Forall2 flips t u -> Forall2 flips s u.
Proof.
  intros H. revert u. induction H as [|a b s t Hab _ IH]; intros u Hu.
  - inversion Hu. constructor.
  - inversion Hu as [|? c ? u' Hbc Htu]; subst. constructor; [|auto].
    destruct Hab as [->|[-> ->]]; [exact Hbc|].
    destruct Hbc as [<-|[F _]]; [right; auto|discriminate].
Qed.

(** A replacement whose matches are rewritten to related text of the same
    length maps the subject to related text. *)
Lemma replace_from_rel (R : char -> char -> Prop) r f :
  (forall a, R a a) ->
  (forall pv s st', exec r pv s = Some st' ->
     Forall2 R (firstn (idx st') s) (f (firstn (idx st') s) (caps st'))) ->
  forall s n pv, Forall2 R (skipn n s) (replace_from r f n pv s).
Proof.
  intros Hrefl Hf s. induction s as [|c t IH]; intros n pv.
  - destruct n; cbn [replace_from skipn]; [|constructor].
    destruct (exec r pv []) as [st'|] eqn:E; [|constructor].
    rewrite app_nil_r. apply Hf in E. rewrite firstn_nil in *. exact E.
  - destruct n as [|n']; cbn [replace_from skipn]; [|apply IH].
    destruct (exec r pv (c :: t)) as [st'|] eqn:E.
    + apply Hf in E. destruct (idx st') as [|i].
      * cbn [firstn] in E |- *.
        destruct (f [] (caps st')); [|inversion E]. cbn [app].
        constructor; [apply Hrefl|apply (IH 0)].
      * rewrite <- (firstn_skipn (S i) (c :: t)) at 1.
        apply Forall2_app; [exact E|]. cbn [skipn]. apply IH.
    + constructor; [apply Hrefl|apply (IH 0)].
Qed.

Lemma replace_g_rel (R : char -> char -> Prop) r f s :
  (forall a, R a a) ->
  (forall pv s st', exec r pv s = Some st' ->
     Forall2 R (firstn (idx st') s) (f (firstn (idx st') s) (caps st'))) ->
  Forall2 R s (replace_g r f s).
Proof.
  intros Hr Hf. unfold replace_g.
  apply (@replace_from_rel R r f Hr Hf s 0 None).
Qed.

Lemma skipn_step (n : nat) (l : jsstring) c t :
  skipn n l = c :: t -> skipn (S n) l = t.
Proof.
  revert l. induction n as [|n IH]; intros l H.
  - cbn [skipn] in H. subst l. reflexivity.
  - destruct l as [|a l]; [discriminate|].
    change (skipn (S n) (a :: l)) with (skipn n l) in H.
    change (skipn (S (S n)) (a :: l)) with (skipn (S n) l).
    apply IH, H.
Qed.

Lemma firstn_plus (a b : nat) (l : jsstring) :
  firstn (a + b) l = firstn a l ++ firstn b (skipn a l).
Proof.
  revert l. induction a as [|a IH]; intros [|c l]; simpl; auto.
  - destruct b; reflexivity.
  - rewrite IH. reflexivity.
Qed.

(** Positions of the states of a match that has consumed the first code
    unit of [c :: t]. *)
Lemma m_pos (t : jsstring) r k st res :
  1 <= idx st /\ rest st = skipn (idx st - 1) t ->
  m r k st = Some res ->
  exists st', (1 <= idx st' /\ rest st' = skipn (idx st' - 1) t)
              /\ k st' = Some res.
Proof.
  intros HI H.
  apply (m_inv (fun st => 1 <= idx st /\ rest st = skipn (idx st - 1) t)
               (fun _ => True))
    with (r := r) (st := st); auto; clear.
  intros st c t' [Hi Hr] E. cbn [idx rest]. split; [lia|].
  rewrite Hr in E. apply skipn_step in E.
  replace (S (idx st) - 1) with (S (idx st - 1)) by lia. symmetry. exact E.
Qed.

(** The index does not decrease and a capture outside the groups of [r]
    is kept. *)
Lemma m_after (i g : nat) (x : jsstring) r k st res :
  ~ In g (groups r) ->
  i <= idx st /\ caps st g = Some x ->
  m r k st = Some res ->
  exists st', (i <= idx st' /\ caps st' g = Some x) /\ k st' = Some res.
Proof.
  intros Hg HI H.
  apply (m_inv (fun st => i <= idx st /\ caps st g = Some x)
               (fun n => n <> g))
    with (r := r) (st := st); auto.
  - intros st1 c t [Hi Hc] _. simpl. split; [lia|exact Hc].
  - intros st1 gs Hgs [Hi Hc]. split; [exact Hi|].
    simpl. unfold clear_caps.
    destruct (existsb (Nat.eqb g) gs) eqn:Eg; [|exact Hc].
    apply existsb_exists in Eg. destruct Eg as (n & Hn & En).
    apply Nat.eqb_eq in En. subst n. apply Hgs in Hn. congruence.
  - intros st0 st1 n Hn _ [Hi Hc]. split; [exact Hi|].
    simpl. unfold set_cap.
    destruct (Nat.eqb_spec g n) as [->|]; [congruence|exact Hc].
  - intros st1 st2 [Hi1 _] [_ Hc2]. split; [exact Hi1|exact Hc2].
  - intros n Hn ->. contradiction.
Qed.

(** The abbreviated-year rule rewrites a match that starts with U+2018 to
    the same text with U+2019 in front: its groups 2 and 3 tile the rest of
    the match. *)
Lemma abbrev_year_match pv s st' :
  exec re_abbrev_year pv s = Some st' ->
  exists x, firstn (idx st') s = c_lsquo :: x
            /\ subst [Lit [c_rsquo]; Ref 2; Ref 3] (firstn (idx st') s)
                 (caps st') = c_rsquo :: x.
Proof.
  unfold exec, re_abbrev_year. cbn [seqs].
  rewrite m_Seq, m_Group. intros H.
  apply m_Chr_inv in H. destruct H as (c & t & Es & Ec & H).
  cbn [rest idx caps with_caps] in Es, H. subst s.
  unfold chr_is in Ec. apply N.eqb_eq in Ec. subst c.
  rewrite m_Seq, m_Group in H.
  apply (m_pos t) in H; [|split; [cbn; lia|reflexivity]].
  destruct H as (st2 & [Hi2 Hr2] & H).
  rewrite m_Group in H.
  apply (@m_after (idx st2) 2 (firstn (idx st2 - 1) t)) in H.
  - destruct H as (st3 & [Hi3 Hc3] & H). inversion H; subst st'; clear H.
    cbn [idx caps with_caps].
    exists (firstn (idx st3 - 1) t). split.
    + destruct (idx st3) as [|i3]; [lia|].
      cbn [firstn]. rewrite Nat.sub_succ, Nat.sub_0_r. reflexivity.
    + unfold subst. cbn [flat_map app]. unfold cap, set_cap.
      cbn [Nat.eqb]. rewrite Hc3, app_nil_r. f_equal.
      unfold consumed. cbn [idx rest with_caps]. rewrite Hr2.
      replace (idx st3 - 1) with ((idx st2 - 1) + (idx st3 - idx st2)) by lia.
      apply eq_sym, firstn_plus.
  - simpl. intuition discriminate.
  - split; [cbn; lia|].
    cbn [caps with_caps]. unfold set_cap. cbn [Nat.eqb].
    unfold consumed. cbn [idx rest with_caps].
    replace (idx st2 - 1) with (idx st2 - 1) by reflexivity. reflexivity.
Qed.

(** The backwards-apostrophe rule matches the single code unit U+2018, with
    an empty group 1, and rewrites it to U+2019. *)
Lemma backwards_match pv s st' :
  exec re_backwards pv s = Some st' ->
  firstn (idx st') s = [c_lsquo]
  /\ subst [Ref 1; Lit [c_rsquo]] (firstn (idx st') s) (caps st') = [c_rsquo].
Proof.
  unfold exec, re_backwards. cbn [seqs].
  rewrite m_Seq, m_Group. intros H.
  assert (H1 : m (Seq (Chr (chr_is c_lsquo))
                   (Look (Seq
          (Star (Group 2 (seqs [Star (Chr (not_any [c_lsquo; c_rsquo]));
                                Chr (chr_is c_rsquo); WordB])))
          (Group 3
             (Alt (seqs [Star (Chr (not_any [c_lsquo; c_rsquo]));
                         NotWordB; Chr is_nonword;
                         Chr (any_of [c_lsquo; c_rsquo]); WordB])
                  (Seq (Star (Chr (not_any [c_lsquo; c_rsquo]))) Eol))))))
                Some (MState 0 pv s (set_cap 1 [] no_caps)) = Some st').
  { rewrite m_Alt in H. cbn [m] in H.
    match type of H with
    | match ?a with _ => _ end = _ => destruct a as [x|] eqn:E
    end.
    - inversion H; subst x; clear H.
      destruct (at_boundary _); [discriminate|]. exact E.
    - cbn [prev] in H. destruct pv; [discriminate|]. exact H. }
  clear H. rewrite m_Seq in H1.
  apply m_Chr_inv in H1. destruct H1 as (c & t & Es & Ec & H).
  cbn [rest idx caps] in Es, H. subst s.
  unfold chr_is in Ec. apply N.eqb_eq in Ec. subst c.
  cbn [m] in H.
  match type of H with
  | match ?a with _ => _ end = _ => destruct a as [st3|] eqn:E
  end; [|discriminate].
  inversion H; subst st'; clear H. cbn [idx caps with_caps firstn].
  split; [reflexivity|].
  change (star_loop _ _ _ _ _ = Some st3) with
    (m (Seq
          (Star (Group 2 (seqs [Star (Chr (not_any [c_lsquo; c_rsquo]));
                                Chr (chr_is c_rsquo); WordB])))
          (Group 3
             (Alt (seqs [Star (Chr (not_any [c_lsquo; c_rsquo]));
                         NotWordB; Chr is_nonword;
                         Chr (any_of [c_lsquo; c_rsquo]); WordB])
                  (Seq (Star (Chr (not_any [c_lsquo; c_rsquo]))) Eol))))
       Some (MState 1 (Some c_lsquo) t (set_cap 1 [] no_caps)) = Some st3)
    in E.
  apply (@m_after 0 1 []) in E.
  - destruct E as (st4 & [_ Hc] & E). inversion E; subst st4.
    unfold subst. cbn [flat_map app]. unfold cap. rewrite Hc. reflexivity.
  - simpl. intuition discriminate.
  - split; [lia|reflexivity].
Qed.

Lemma apply_year_flips t : Forall2 flips t (apply_rule t year_rule).
Proof.
  unfold apply_rule, year_rule. cbn [fst snd].
  apply replace_g_rel; [left; reflexivity|].
  intros pv s st' E. apply abbrev_year_match in E.
  destruct E as (x & -> & ->).
  constructor; [right; split; reflexivity|apply flips_refl].
Qed.

Lemma apply_backwards_flips t : Forall2 flips t (apply_rule t backwards_rule).
Proof.
  unfold apply_rule, backwards_rule. cbn [fst snd].
  apply replace_g_rel; [left; reflexivity|].
  intros pv s st' E. apply backwards_match in E.
  destruct E as (-> & ->).
  constructor; [right; split; reflexivity|constructor].
Qed.

Lemma flips_free_of_straight t u :
  Forall2 flips t u -> free_of is_straight t -> free_of is_straight u.
Proof.
  intros H. induction H as [|a b t u Hab _ IH]; intros Ht; [constructor|].
  inversion Ht as [|? ? Ha Ht']; subst. constructor.
  - destruct Hab as [<-|[_ ->]]; [assumption|reflexivity].
  - apply IH, Ht'.
Qed.

Lemma flips_starts_with h t u :
  h <> c_lsquo -> h <> c_rsquo -> Forall2 flips t u ->
  starts_with [h; h] u = starts_with [h; h] t.
Proof.
  intros H1 H2 H.
  assert (Hc : forall a b, flips a b -> N.eqb b h = N.eqb a h).
  { intros a b [<-|[-> ->]]; [reflexivity|].
    destruct (N.eqb_spec c_rsquo h), (N.eqb_spec c_lsquo h); congruence. }
  destruct H as [|a b t u Hab Htu]; [reflexivity|].
  cbn [starts_with]. rewrite (Hc _ _ Hab).
  destruct Htu as [|a' b' t' u' Hab' _]; [reflexivity|].
  cbn [starts_with]. rewrite (Hc _ _ Hab'). reflexivity.
Qed.

Lemma flips_contains h t u :
  h <> c_lsquo -> h <> c_rsquo -> Forall2 flips t u ->
  contains [h; h] u = contains [h; h] t.
Proof.
  intros H1 H2 H. induction H as [|a b t u Hab Htu IH]; [reflexivity|].
  cbn [contains]. rewrite IH.
  rewrite (flips_starts_with H1 H2 (Forall2_cons _ _ Hab Htu)). reflexivity.
Qed.

Lemma needs_straight :
  Forall (fun rule => needs is_straight (fst rule)) (firstn 7 quote_rules)
  /\ needs is_straight (fst end_sq_rule)
  /\ Forall (fun rule => needs is_straight (fst rule))
       [(re_dq, [Lit [c_dprime]]); (re_sq, [Lit [c_prime]])].
Proof.
  repeat split;
    repeat (apply Forall_cons || apply Forall_nil); simpl; needs_tac.
Qed.

Lemma apply_rule_id Q rule s :
  needs Q (fst rule) -> free_of Q s -> apply_rule s rule = s.
Proof. intros Hn Hs. unfold apply_rule. eapply needs_replace_id; eauto. Qed.

(** On text without straight quotes, double hyphens and double periods,
    [quotes] only turns some U+2018 into U+2019. *)
Lemma quotes_flips t :
  free_of is_straight t ->
  contains [c_hyphen; c_hyphen] t = false ->
  contains [c_dot; c_dot] t = false ->
  Forall2 flips t (quotes t).
Proof.
  intros Ht Hh Hd.
  destruct needs_straight as (N7 & N9 & N11).
  change (quotes t) with
    (apply_rule
       (apply_rule
          (fold_left apply_rule
             [(re_dq, [Lit [c_dprime]]); (re_sq, [Lit [c_prime]])]
             (apply_rule
                (apply_rule
                   (apply_rule
                      (fold_left apply_rule (firstn 7 quote_rules) t)
                      year_rule)
                   end_sq_rule)
                backwards_rule))
          (re_dashes, [Lit [c_emdash]]))
       (re_dots, [Lit [c_ellipsis]])).
  rewrite (fold_rules_id N7 Ht).
  pose proof (apply_year_flips t) as F8.
  set (t8 := apply_rule t year_rule) in *.
  pose proof (flips_free_of_straight F8 Ht) as Ht8.
  rewrite (apply_rule_id _ N9 Ht8).
  pose proof (apply_backwards_flips t8) as F10.
  set (t10 := apply_rule t8 backwards_rule) in *.
  pose proof (flips_free_of_straight F10 Ht8) as Ht10.
  rewrite (fold_rules_id N11 Ht10).
  pose proof (flips_trans F8 F10) as F.
  assert (Hh10 : contains [c_hyphen; c_hyphen] t10 = false).
  { rewrite <- Hh. apply flips_contains; [discriminate|discriminate|exact F]. }
  assert (Hd10 : contains [c_dot; c_dot] t10 = false).
  { rewrite <- Hd. apply flips_contains; [discriminate|discriminate|exact F]. }
  unfold apply_rule. cbn [fst snd].
  rewrite (@dashes_id _ t10 Hh10), (@dots_id _ t10 Hd10). exact F.
Qed.

Lemma flips_without_lsquo t u :
  Forall2 flips t u -> existsb (chr_is c_lsquo) t = false -> t = u.
Proof.
  intros H. induction H as [|a b t u Hab _ IH]; intros Hn; [reflexivity|].
  cbn [existsb] in Hn. apply orb_false_iff in Hn. destruct Hn as [Ha Hn].
  f_equal; [|auto].
  destruct Hab as [E|[-> _]]; [exact E|]. discriminate.
Qed.

(** C3, as stated, fails: the output of [quotes] on "'a 'a" holds no
    straight quote, no double hyphen and no double period, yet a second run
    turns its opening U+2018 into U+2019. *)
Lemma quotes_not_idempotent :
  quotes (js "'a 'a") = js "‘a ’a"
  /\ existsb is_straight (quotes (js "'a 'a")) = false
  /\ contains (js "--") (quotes (js "'a 'a")) = false
  /\ contains (js "..") (quotes (js "'a 'a")) = false
  /\ quotes (quotes (js "'a 'a")) = js "’a ’a"
  /\ quotes (quotes (js "'a 'a")) <> quotes (js "'a 'a").
Proof. repeat split; try (vm_compute; reflexivity). vm_compute; discriminate. Qed.

(** C3 (amended): when the output of [quotes] holds no straight quote, no
    double hyphen and no double period, a second run of [quotes] changes it
    at most by turning opening curly single quotes U+2018 into U+2019: the
    length and every other code unit, U+2019, U+201C and U+201D among them,
    stay as they are; an output without U+2018 is returned unchanged. *)
Theorem quotes_second_run (s : jsstring) :
  existsb is_straight (quotes s) = false ->
  contains (js "--") (quotes s) = false ->
  contains (js "..") (quotes s) = false ->
  Forall2 flips (quotes s) (quotes (quotes s))
  /\ (existsb (chr_is c_lsquo) (quotes s) = false ->
      quotes (quotes s) = quotes s).
Proof.
  intros Hs Hh Hd.
  assert (F : Forall2 flips (quotes s) (quotes (quotes s))).
  { apply quotes_flips; [apply free_of_existsb, Hs|exact Hh|exact Hd]. }
  split; [exact F|].
  intros Hl. symmetry. eapply flips_without_lsquo; eauto.
Qed.

Lemma quotes_second_run_witness :
  quotes (quotes (js "it's -- the '90s..")) = quotes (js "it's -- the '90s..").
Proof.
  apply (fun H1 H2 H3 =>
           proj2 (quotes_second_run (js "it's -- the '90s..") H1 H2 H3));
    vm_compute; reflexivity.
Defined.

(** * [proper] *)

Lemma str_eqb_eq a b : str_eqb a b = true <-> a = b.
Proof.
  unfold str_eqb. destruct (list_eq_dec N.eq_dec a b); split; congruence.
Qed.

Lemma indexOf_from_spec l x : forall i, (0 <= i)%Z ->
  (In x l -> (i <= indexOf_from i l x)%Z) /\
  (~ In x l -> indexOf_from i l x = (-1)%Z).
Proof.
  induction l as [|y t IH]; intros i Hi; simpl.
  - split; [contradiction|reflexivity].
  - destruct (str_eqb y x) eqn:E.
    + apply str_eqb_eq in E. split; [lia|]. intros H. exfalso. auto.
    + destruct (IH (i + 1)%Z) as [IH1 IH2]; [lia|]. split.
      * intros [H|H]; [apply str_eqb_eq in H; congruence|].
        apply IH1 in H. lia.
      * intros H. apply IH2. auto.
Qed.

Lemma indexOf_found l x : (indexOf l x >? -1)%Z = true <-> In x l.
Proof.
  unfold indexOf.
  destruct (indexOf_from_spec l x (i := 0%Z)) as [H1 H2]; [lia|].
  rewrite Z.gtb_lt. split.
  - intros H. destruct (in_dec (list_eq_dec N.eq_dec) x l) as [Hin|Hn]; auto.
    rewrite H2 in H by assumption. lia.
  - intros H. apply H1 in H. lia.
Qed.

Lemma indexOf_absent l x : ~ In x l -> (indexOf l x >? -1)%Z = false.
Proof.
  intros H. destruct (indexOf l x >? -1)%Z eqn:E; [|reflexivity].
  apply indexOf_found in E. contradiction.
Qed.

Lemma lower_cu_length c : List.length (lower_cu c) = 1.
Proof.
  unfold lower_cu.
  repeat match goal with |- context [if ?b then _ else _] => destruct b end;
    reflexivity.
Qed.

Lemma toLowerCase_length s : List.length (toLowerCase s) = List.length s.
Proof.
  unfold toLowerCase. induction s as [|c t IH]; simpl; [reflexivity|].
  rewrite length_app, lower_cu_length, IH. reflexivity.
Qed.

(** C2: [quotes] followed by [proper] turns "john q. o'donnel, III" into
    "John Q O’Donnel, III": the restriction replaces the period by a space,
    the token q is upper-cased, the token with the prefix o’ gets the prefix
    and the first letter of the remainder upper-cased, and III is
    upper-cased as a suffix. *)
Theorem proper_quotes_john_q_odonnel :
  quotes (js "john q. o'donnel, III") = js "john q. o’donnel, III"
  /\ proper (quotes (js "john q. o'donnel, III")) = js "John Q O’Donnel, III"
  /\ replace_g re_restrict (subst [Lit [c_space]]) (js "john q. o’donnel, III")
     = js "john q  o’donnel, III"
  /\ hasBothUpperAndLower (js "john q. o’donnel, III") = true
  /\ properNameCapitalizer true (js "john") = js "John"
  /\ properNameCapitalizer true (js "q") = js "Q"
  /\ properNameCapitalizer true (js "o’donnel") = js "O’Donnel"
  /\ properNameCapitalizer true (js "III") = js "III"
  /\ properNameCapitalizer true (js "iii") = js "III".
Proof. repeat split; vm_compute; reflexivity. Qed.

(** C4: a token of length at most 3 whose lower-case form is one of dit, de,
    von is rewritten to its lower-case form whatever the mixed-case flag is;
    [proper] turns "VON Trap" into "von Trap". *)
Theorem particle_lowercased :
  (forall (mixedCase : bool) (match_ : jsstring),
     List.length match_ <= 3 ->
     In (toLowerCase match_) particles ->
     properNameCapitalizer mixedCase match_ = toLowerCase match_)
  /\ hasBothUpperAndLower (js "VON Trap") = true
  /\ proper (js "VON Trap") = js "von Trap".
Proof.
  split; [|split; vm_compute; reflexivity].
  intros mixedCase match_ Hlen Hin.
  pose proof (toLowerCase_length match_) as HL.
  unfold properNameCapitalizer.
  apply Nat.leb_le in Hlen. rewrite Hlen.
  rewrite (proj2 (indexOf_found particles (toLowerCase match_)) Hin).
  assert (Hr : ~ In (toLowerCase match_) roman_suffixes).
  { intros Hr. simpl in Hin, Hr.
    destruct Hin as [H|[H|[H|[]]]]; rewrite <- H in Hr;
      repeat (destruct Hr as [Hr|Hr]; [discriminate|]); contradiction. }
  rewrite (indexOf_absent _ _ Hr).
  assert (H1 : (List.length match_ =? 1) = false).
  { apply Nat.eqb_neq. rewrite <- HL. simpl in Hin.
    destruct Hin as [H|[H|[H|[]]]]; rewrite <- H; simpl; lia. }
  rewrite H1. reflexivity.
Qed.

Lemma particle_lowercased_witness :
  properNameCapitalizer true (js "VON") = js "von".
Proof.
  apply (proj1 particle_lowercased true (js "VON")).
  - simpl. lia.
  - simpl. auto.
Defined.

(** C5, as stated, fails: "ÉÀ éà" holds the upper-case letters É and À and
    the lower-case letters é and à, each the other case of its counterpart,
    yet the flag is false, because the source tests [A-Z] and [a-z] only;
    the token ÉÀ of length 2, which is neither a suffix nor a particle, is
    then rewritten to Éà. *)
Lemma mixed_case_flag_misses_accented_letters :
  toLowerCase (js "ÉÀ") = js "éà"
  /\ toUpperCase (js "éà") = js "ÉÀ"
  /\ hasBothUpperAndLower (js "ÉÀ éà") = false
  /\ ~ In (toLowerCase (js "ÉÀ")) roman_suffixes
  /\ ~ In (toLowerCase (js "ÉÀ")) particles
  /\ proper (js "ÉÀ éà") = js "Éà Éà".
Proof.
  repeat split; try (vm_compute; reflexivity);
    vm_compute; intuition discriminate.
Qed.

(** C5 (amended): the mixed-case flag of [proper] is [hasBothUpperAndLower]
    of the original input; it is true exactly when the input holds a letter
    of A-Z and a letter of a-z, the letters outside ASCII not counting;
    under a true flag a token of length 2 or 3 that is neither a suffix ii,
    iii, iv, v nor a particle dit, de, von is left as it is; "ABC company"
    becomes "ABC Company", whereas "ABC COMPANY", which has no lower-case
    letter, becomes "Abc Company". *)
Theorem mixed_case_preserved :
  (forall value,
     proper value =
     replace_g re_token
       (fun match_ _ =>
          properNameCapitalizer (hasBothUpperAndLower value) match_)
       (trim (replace_g re_spaces (subst [Lit [c_space]])
                (replace_g re_restrict (subst [Lit [c_space]]) value))))
  /\ (forall value,
        hasBothUpperAndLower value = true <->
        (exists c, In c value /\ (65 <= c <= 90)%N) /\
        (exists c, In c value /\ (97 <= c <= 122)%N))
  /\ (forall match_,
        List.length match_ = 2 \/ List.length match_ = 3 ->
        ~ In (toLowerCase match_) roman_suffixes ->
        ~ In (toLowerCase match_) particles ->
        properNameCapitalizer true match_ = match_)
  /\ proper (js "ABC company") = js "ABC Company"
  /\ proper (js "ABC COMPANY") = js "Abc Company".
Proof.
  split; [reflexivity|].
  split; [|split; [|split; vm_compute; reflexivity]].
  - intros value. unfold hasBothUpperAndLower.
    rewrite !test_chr, andb_true_iff, !existsb_exists.
    unfold is_upper_az, is_lower_az, in_range.
    split; intros [(a & Ha & Ha') (b & Hb & Hb')]; split.
    + exists a. split; [assumption|].
      apply andb_true_iff in Ha'. rewrite !N.leb_le in Ha'. lia.
    + exists b. split; [assumption|].
      apply andb_true_iff in Hb'. rewrite !N.leb_le in Hb'. lia.
    + exists a. split; [assumption|].
      apply andb_true_iff. rewrite !N.leb_le. lia.
    + exists b. split; [assumption|].
      apply andb_true_iff. rewrite !N.leb_le. lia.
  - intros match_ Hlen Hr Hp. unfold properNameCapitalizer.
    rewrite (indexOf_absent _ _ Hr), (indexOf_absent _ _ Hp).
    destruct Hlen as [-> | ->]; reflexivity.
Qed.

Lemma mixed_case_preserved_witness :
  properNameCapitalizer true (js "ABC") = js "ABC".
Proof.
  apply (proj1 (proj2 (proj2 mixed_case_preserved))).
  - right. reflexivity.
  - vm_compute. intuition discriminate.
  - vm_compute. intuition discriminate.
Defined.

(** ** The alphabet of [proper] *)

Ltac bool_to_prop :=
  rewrite ?orb_true_iff, ?andb_true_iff, ?negb_true_iff, ?orb_false_iff,
    ?andb_false_iff, ?negb_false_iff, ?N.leb_le, ?N.leb_gt, ?N.eqb_eq,
    ?N.eqb_neq in *.

Lemma is_allowed_iff c : is_allowed c = true <-> in_class c.
Proof.
  unfold is_allowed, in_class, is_upper_az, is_lower_az, is_digit, in_range,
    c_rsquo, c_space, c_comma, c_hyphen.
  bool_to_prop. lia.
Qed.

Lemma upper_cu_out c : out_class c -> Forall out_class (upper_cu c).
Proof.
  unfold upper_cu, out_class, in_class, is_lower_az, in_range. intros H.
  repeat match goal with
         | |- context [if ?b then _ else _] => destruct b eqn:?
         end;
    bool_to_prop; repeat (apply Forall_cons || apply Forall_nil); lia.
Qed.

Lemma lower_cu_in c : in_class c -> Forall in_class (lower_cu c).
Proof.
  unfold lower_cu, in_class, is_upper_az, in_range. intros H.
  repeat match goal with
         | |- context [if ?b then _ else _] => destruct b eqn:?
         end;
    bool_to_prop; repeat (apply Forall_cons || apply Forall_nil); lia.
Qed.

Lemma Forall_flat_map (P Q : char -> Prop) (g : char -> jsstring) s :
  (forall c, P c -> Forall Q (g c)) -> Forall P s -> Forall Q (flat_map g s).
Proof.
  intros Hg Hs. induction Hs as [|c t Hc _ IH]; simpl; [constructor|].
  apply Forall_app; auto.
Qed.

Lemma trim_start_chars (P : char -> Prop) s :
  Forall P s -> Forall P (trim_start s).
Proof.
  intros H. induction H as [|c t Hc Ht IH]; simpl; [constructor|].
  destruct (is_space c); auto.
Qed.

Lemma trim_end_chars (P : char -> Prop) s :
  Forall P s -> Forall P (trim_end s).
Proof.
  intros H. induction H as [|c t Hc Ht IH]; simpl; [constructor|].
  destruct (trim_end t) as [|a t'].
  - destruct (is_space c); auto.
  - auto.
Qed.

Lemma trim_chars (P : char -> Prop) s : Forall P s -> Forall P (trim s).
Proof. intros H. apply trim_end_chars, trim_start_chars, H. Qed.

(** The token rewriting maps text over [P] to text over [Q] when the case
    tables do. *)
Section Capitalizer.

Variables P Q : char -> Prop.
Hypothesis PQ : forall c, P c -> Q c.
Hypothesis lower_P : forall c, P c -> Forall P (lower_cu c).
Hypothesis upper_Q : forall c, Q c -> Forall Q (upper_cu c).

Lemma ucFirst_chars s : Forall Q s -> Forall Q (ucFirst s).
Proof.
  intros H. unfold ucFirst, toUpperCase. apply Forall_app; split.
  - apply Forall_flat_map with (P := Q); auto. apply Forall_firstn, H.
  - apply Forall_skipn, H.
Qed.

Lemma properNameCapitalizer_chars mixedCase match_ :
  Forall P match_ -> Forall Q (properNameCapitalizer mixedCase match_).
Proof.
  intros H.
  assert (HQ : Forall Q match_) by (eapply Forall_impl; eauto).
  assert (HL : Forall P (toLowerCase match_))
    by (apply Forall_flat_map with (P := P); auto).
  assert (HLQ : Forall Q (toLowerCase match_))
    by (eapply Forall_impl; eauto).
  assert (HU : Forall Q (toUpperCase match_))
    by (apply Forall_flat_map with (P := Q); auto).
  unfold properNameCapitalizer.
  repeat match goal with
         | |- context [if ?b then _ else _] => destruct b
         end; auto.
  unfold replace_1.
  apply replace_first_from_chars with (P := Q); auto using ucFirst_chars.
  intros mt cs _ Hc. apply Forall_app; split; apply ucFirst_chars;
    unfold cap.
  - destruct (cs 1) as [x|] eqn:E; [eapply Hc; eauto|constructor].
  - destruct (cs 2) as [x|] eqn:E; [eapply Hc; eauto|constructor].
Qed.

End Capitalizer.

Lemma restrict_map value :
  replace_g re_restrict (subst [Lit [c_space]]) value
  = map (fun c => if is_allowed c then c else c_space) value.
Proof.
  unfold re_restrict. rewrite replace_chr.
  apply flat_map_single. intros c. destruct (is_allowed c); reflexivity.
Qed.

Lemma in_class_space : in_class c_space.
Proof. unfold in_class, c_space. lia. Qed.

Lemma restrict_in_class value :
  Forall in_class (replace_g re_restrict (subst [Lit [c_space]]) value).
Proof.
  rewrite restrict_map. apply Forall_forall. intros c Hc.
  apply in_map_iff in Hc. destruct Hc as (a & <- & _).
  destruct (is_allowed a) eqn:E; [apply is_allowed_iff, E|apply in_class_space].
Qed.

Lemma trimmed_in_class value :
  Forall in_class
    (trim (replace_g re_spaces (subst [Lit [c_space]])
             (replace_g re_restrict (subst [Lit [c_space]]) value))).
Proof.
  apply trim_chars.
  apply replace_g_chars with (P := in_class); auto.
  - apply subst_ok; auto.
    apply Forall_cons; [|apply Forall_nil].
    apply Forall_cons; [apply in_class_space|apply Forall_nil].
  - apply restrict_in_class.
Qed.

(** C6, as stated, fails: U+00FF passes the restriction and is upper-cased
    to U+0178, which lies outside the class the restriction keeps; and the
    multiplication sign U+00D7, which is no letter, passes the restriction
    and reaches the output. *)
Lemma proper_leaves_restricted_class :
  proper (js "ÿ") = [376%N]
  /\ is_allowed 376%N = false
  /\ proper (js "×") = [215%N]
  /\ upper_cu 215%N = [215%N] /\ lower_cu 215%N = [215%N].
Proof. repeat split; vm_compute; reflexivity. Qed.

(** C6 (amended): every code unit of the output of [proper] is in A-Z, a-z,
    0-9, the range U+00C0 to U+00FF, U+0178, U+2019, space, comma or hyphen;
    the restriction step replaces every code unit outside
    A-Z, a-z, 0-9, U+00C0 to U+00FF, U+2019, space, comma, hyphen by a space
    and keeps the others. *)
Theorem proper_alphabet (value : jsstring) :
  Forall out_class (proper value)
  /\ replace_g re_restrict (subst [Lit [c_space]]) value
     = map (fun c => if is_allowed c then c else c_space) value
  /\ (forall c, is_allowed c = true <-> in_class c).
Proof.
  split; [|split; [apply restrict_map|apply is_allowed_iff]].
  unfold proper.
  apply replace_g_chars with (P := in_class).
  - intros c H. left. exact H.
  - intros mt cs Hm _.
    apply properNameCapitalizer_chars with (P := in_class);
      auto using lower_cu_in, upper_cu_out.
    intros c H. left. exact H.
  - apply trimmed_in_class.
Qed.

(** ** Greedy runs over a character class *)

Lemma idx_run_state p s : forall i pv cs,
  idx (run_state p i pv s cs) = i + lead p s.
Proof.
  induction s as [|c t IH]; intros i pv cs; simpl; [lia|].
  destruct (p c); simpl; [rewrite IH|]; lia.
Qed.

Lemma caps_run_state p s : forall i pv cs, caps (run_state p i pv s cs) = cs.
Proof.
  induction s as [|c t IH]; intros i pv cs; simpl; [reflexivity|].
  destruct (p c); simpl; auto.
Qed.

(** With a continuation that accepts the state after the longest run, the
    greedy star over a class stops there. *)
Lemma star_chr_greedy p (k : cont) x : forall fuel i pv s cs,
  List.length s <= fuel ->
  k (run_state p i pv s cs) = Some x ->
  star_loop (m (Chr p)) [] k fuel (MState i pv s cs) = Some x.
Proof.
  induction fuel as [|f IH]; intros i pv s cs Hlen Hk.
  - destruct s; [exact Hk|simpl in Hlen; lia].
  - simpl. destruct s as [|c t]; simpl in *; [exact Hk|].
    destruct (p c).
    + assert (E : (i <? S i) = true) by (apply Nat.ltb_lt; lia).
      rewrite E.
      change (clear_caps [] cs) with cs.
      rewrite (IH (S i) (Some c) t cs); [reflexivity|lia|exact Hk].
    + exact Hk.
Qed.

Lemma firstn_lead p s : Forall (fun c => p c = true) (firstn (lead p s) s).
Proof.
  induction s as [|c t IH]; simpl; [constructor|].
  destruct (p c) eqn:E; simpl; [constructor; assumption|constructor].
Qed.

(** The token pattern and the double-space pattern at one position. *)
Lemma exec_token_some pv c t :
  is_token_char c = true ->
  exists st', exec re_token pv (c :: t) = Some st'
              /\ idx st' = S (lead is_token_char t).
Proof.
  intros Hc. unfold exec, re_token, Plus. simpl. rewrite Hc.
  eexists. split.
  - apply star_chr_greedy; [lia|reflexivity].
  - simpl. rewrite idx_run_state. reflexivity.
Qed.

Lemma exec_token_none pv s :
  match s with c :: _ => is_token_char c = false | [] => True end ->
  exec re_token pv s = None.
Proof.
  intros H. unfold exec, re_token, Plus. simpl.
  destruct s as [|c t]; [reflexivity|]. rewrite H. reflexivity.
Qed.

Lemma exec_spaces_some pv t :
  exists st', exec re_spaces pv (c_space :: c_space :: t) = Some st'
              /\ idx st' = S (S (lead is_sp t)).
Proof.
  unfold exec, re_spaces, Plus. simpl.
  eexists. split.
  - apply star_chr_greedy; [lia|reflexivity].
  - rewrite idx_run_state. reflexivity.
Qed.

Lemma exec_spaces_none pv s :
  starts_with [c_space; c_space] s = false -> exec re_spaces pv s = None.
Proof.
  intros H. unfold exec, re_spaces, Plus. simpl.
  destruct s as [|a [|b t]]; simpl in *; unfold chr_is.
  - reflexivity.
  - destruct (N.eqb a c_space); reflexivity.
  - destruct (N.eqb a c_space); [|reflexivity].
    destruct (N.eqb b c_space); [discriminate|reflexivity].
Qed.

(** ** The prefix pattern of [properNameCapitalizer] *)

Lemma prefix_cap1 pv s st' :
  exec re_prefix pv s = Some st' -> cap (caps st') 1 <> [].
Proof.
  unfold exec, re_prefix. cbn [seqs].
  rewrite m_Seq, m_Bol. cbn [prev].
  destruct pv; [discriminate|].
  rewrite m_Seq, m_Group. intros H.
  assert (H1 : exists c t st1,
             s = c :: t /\ 1 <= idx st1 /\
             m (Group 2 (seqs [Chr is_nonspace; Chr is_nonspace;
                               Star (Chr is_nonspace); Eol])) Some
               (with_caps st1
                  (set_cap 1 (consumed (MState 0 None s no_caps) st1)
                           (caps st1))) = Some st').
  { rewrite m_Alt in H.
    match type of H with
    | match ?a with _ => _ end = _ => destruct a as [x|] eqn:E
    end.
    - inversion H; subst x; clear H. cbn [seqs] in E. rewrite m_Seq in E.
      apply m_Chr_inv in E. destruct E as (c & t & Er & _ & E).
      apply m_idx_pos in E; [|simpl; lia].
      destruct E as (st1 & Hi & E). simpl in Er. eauto 6.
    - rewrite m_Seq in H.
      apply m_Chr_inv in H. destruct H as (c & t & Er & _ & H).
      apply m_idx_pos in H; [|simpl; lia].
      destruct H as (st1 & Hi & H). simpl in Er. eauto 6. }
  destruct H1 as (c & t & st1 & -> & Hi & H1).
  apply (@m_keeps_cap (fun x => x <> []) 1) in H1.
  - destruct H1 as (st2 & (x & E & Hx) & E2). inversion E2; subst st2.
    unfold cap. rewrite E. exact Hx.
  - simpl. intros [F|[]]. discriminate.
  - eexists. split; [reflexivity|].
    unfold consumed. simpl. destruct (idx st1 - 0) eqn:E; [lia|].
    simpl. discriminate.
Qed.

Lemma upper_cu_nonempty c : upper_cu c <> [].
Proof.
  unfold upper_cu.
  repeat match goal with |- context [if ?b then _ else _] => destruct b end;
    discriminate.
Qed.

Lemma toUpperCase_nonempty s : s <> [] -> toUpperCase s <> [].
Proof.
  destruct s as [|c t]; [congruence|]. intros _. simpl.
  pose proof (upper_cu_nonempty c). destruct (upper_cu c); [congruence|].
  discriminate.
Qed.

Lemma toLowerCase_nonempty s : s <> [] -> toLowerCase s <> [].
Proof.
  intros H E. apply H.
  apply length_zero_iff_nil. rewrite <- toLowerCase_length, E. reflexivity.
Qed.

Lemma ucFirst_nonempty s : s <> [] -> ucFirst s <> [].
Proof.
  destruct s as [|c t]; [congruence|]. intros _. unfold ucFirst. simpl.
  rewrite app_nil_r. pose proof (upper_cu_nonempty c).
  destruct (upper_cu c); [congruence|]. discriminate.
Qed.

Lemma properNameCapitalizer_nonempty mixedCase match_ :
  match_ <> [] -> properNameCapitalizer mixedCase match_ <> [].
Proof.
  intros H. unfold properNameCapitalizer.
  repeat match goal with
         | |- context [if ?b then _ else _] => destruct b
         end;
    auto using toUpperCase_nonempty, toLowerCase_nonempty.
  unfold replace_1.
  pose proof (ucFirst_nonempty (toLowerCase_nonempty H)) as Hu.
  destruct (ucFirst (toLowerCase match_)) as [|c t] eqn:E; [congruence|].
  simpl. destruct (exec re_prefix None (c :: t)) as [st'|] eqn:Ex.
  - apply prefix_cap1 in Ex. intros F.
    apply app_eq_nil in F. destruct F as [F _].
    apply app_eq_nil in F. destruct F as [F _].
    revert F. apply ucFirst_nonempty, Ex.
  - discriminate.
Qed.

(** ** Spacing of the output of [proper] *)

Lemma tidy_trailing t : forall b, tidy b (t ++ [c_space]) = false.
Proof.
  unfold tidy. induction t as [|c t IH]; intros b; simpl.
  - destruct b; reflexivity.
  - destruct (N.eqb c c_space); [rewrite IH; apply andb_false_r|apply IH].
Qed.

Lemma tidy_double a x : forall b, tidy b (a ++ [c_space; c_space] ++ x) = false.
Proof.
  unfold tidy. induction a as [|c t IH]; intros b; simpl.
  - apply andb_false_r.
  - destruct (N.eqb c c_space); [rewrite IH; apply andb_false_r|apply IH].
Qed.

Lemma tidy_well_spaced s : s = [] \/ tidy true s = true -> well_spaced s.
Proof.
  intros [->|H]; repeat split.
  - discriminate.
  - intros t E. destruct t; discriminate.
  - intros a b E. destruct a; discriminate.
  - intros t ->. simpl in H. discriminate.
  - intros t ->. rewrite tidy_trailing in H. discriminate.
  - intros a b ->. rewrite tidy_double in H. discriminate.
Qed.

Lemma tidy_app_word x : forall w b,
  w <> [] -> Forall (fun c => c <> c_space) w ->
  tidy b (w ++ x) = tidy false x.
Proof.
  unfold tidy.
  induction w as [|c [|c' w'] IH]; intros b Hn Hw; [congruence| |].
  - inversion Hw; subst. cbn [app spaced].
    destruct (N.eqb_spec c c_space); [contradiction|reflexivity].
  - inversion Hw; subst.
    change ((c :: c' :: w') ++ x) with (c :: ((c' :: w') ++ x)).
    cbn [spaced].
    destruct (N.eqb_spec c c_space); [contradiction|].
    apply IH; [discriminate|assumption].
Qed.

Lemma sp_is_space c : N.eqb c c_space = true -> is_space c = true.
Proof. intros H. apply N.eqb_eq in H. subst c. reflexivity. Qed.

Lemma lead_sp_cons c t :
  lead is_sp (c :: t) = if N.eqb c c_space then S (lead is_sp t) else 0.
Proof. reflexivity. Qed.

(** Collapsing: the double-space rule leaves no two adjacent spaces. *)
Lemma collapse_no_double s : forall n pv b,
  n = 0 \/ n = lead is_sp s ->
  (b = true -> n = lead is_sp s) ->
  no_double b (replace_from re_spaces (subst [Lit [c_space]]) n pv s) = true.
Proof.
  induction s as [|c t IH]; intros n pv b Hn Hb.
  - destruct n; cbn [replace_from]; [|reflexivity].
    rewrite exec_spaces_none by reflexivity. reflexivity.
  - destruct n as [|n'].
    + cbn [replace_from].
      destruct (starts_with [c_space; c_space] (c :: t)) eqn:E.
      * simpl in E. destruct (N.eqb_spec c c_space) as [->|]; [|discriminate].
        destruct t as [|c' t']; [discriminate|].
        destruct (N.eqb_spec c' c_space) as [->|]; [|discriminate].
        destruct (exec_spaces_some pv t') as (st' & -> & ->).
        cbn [subst flat_map app]. unfold no_double. cbn [spaced].
        rewrite N.eqb_refl.
        destruct b; [specialize (Hb eq_refl); simpl in Hb; discriminate|].
        cbn [negb andb]. apply IH; intros; right + idtac; reflexivity.
      * rewrite exec_spaces_none by exact E.
        unfold no_double. cbn [spaced].
        destruct (N.eqb_spec c c_space) as [->|Hc].
        -- destruct b; [specialize (Hb eq_refl); simpl in Hb; discriminate|].
           cbn [negb andb]. apply IH; [left; reflexivity|].
           intros _. destruct t as [|c' t']; [reflexivity|].
           rewrite lead_sp_cons. simpl in E.
           destruct (N.eqb c' c_space); [discriminate|reflexivity].
        -- apply IH; [left; reflexivity|discriminate].
    + cbn [replace_from].
      assert (Hl : S n' = lead is_sp (c :: t)) by (destruct Hn; [discriminate|assumption]).
      rewrite lead_sp_cons in Hl.
      destruct (N.eqb c c_space); [|discriminate].
      apply IH; [right; congruence|intros _; congruence].
Qed.

Lemma trim_start_no_double s : forall b,
  no_double b s = true -> no_double true (trim_start s) = true.
Proof.
  induction s as [|c t IH]; intros b H; [reflexivity|].
  cbn [trim_start]. unfold no_double in *. cbn [spaced] in H.
  destruct (is_space c) eqn:Es.
  - destruct (N.eqb c c_space).
    + apply andb_true_iff in H. destruct H as [_ H]. eapply IH; eauto.
    + eapply IH; eauto.
  - cbn [spaced]. destruct (N.eqb c c_space) eqn:Ec.
    + apply sp_is_space in Ec. congruence.
    + exact H.
Qed.

Lemma trim_end_tidy s : forall b,
  no_double b s = true -> trim_end s = [] \/ tidy b (trim_end s) = true.
Proof.
  induction s as [|c t IH]; intros b H; [left; reflexivity|].
  cbn [trim_end]. unfold no_double in H. cbn [spaced] in H.
  destruct (trim_end t) as [|a t'] eqn:E.
  - destruct (is_space c) eqn:Es; [left; reflexivity|right].
    unfold tidy. cbn [spaced]. destruct (N.eqb c c_space) eqn:Ec.
    + apply sp_is_space in Ec. congruence.
    + reflexivity.
  - right. unfold tidy. cbn [spaced]. destruct (N.eqb c c_space).
    + apply andb_true_iff in H. destruct H as [Hb H].
      rewrite Hb. destruct (IH true H) as [F|F]; [discriminate|exact F].
    + destruct (IH false H) as [F|F]; [discriminate|exact F].
Qed.

Lemma token_not_space c : is_token_char c = true -> c <> c_space.
Proof. intros H ->. discriminate. Qed.

(** Token rewriting keeps the spacing when tokens are rewritten to words. *)
Section TokenSpacing.

Variable g : jsstring -> jsstring.
Hypothesis g_word : forall mt,
  mt <> [] -> Forall (fun c => is_token_char c = true) mt ->
  g mt <> [] /\ Forall (fun c => c <> c_space) (g mt).

Lemma token_tidy s : forall n pv b,
  n = 0 \/ (n = lead is_token_char s /\ b = false) ->
  tidy b (replace_from re_token (fun mt _ => g mt) n pv s) = tidy b s.
Proof.
  induction s as [|c t IH]; intros n pv b Hn.
  - destruct n; cbn [replace_from]; [|reflexivity].
    rewrite exec_token_none by exact I. reflexivity.
  - destruct n as [|n'].
    + cbn [replace_from]. destruct (is_token_char c) eqn:Ec.
      * destruct (@exec_token_some pv c t Ec) as (st' & -> & ->).
        cbn [firstn].
        destruct (g_word (mt := c :: firstn (lead is_token_char t) t))
          as [Hne Hw].
        { discriminate. }
        { constructor; [exact Ec|apply firstn_lead]. }
        rewrite tidy_app_word by assumption.
        rewrite IH by (right; split; reflexivity).
        unfold tidy. cbn [spaced].
        destruct (N.eqb_spec c c_space) as [->|]; [discriminate|reflexivity].
      * rewrite exec_token_none by exact Ec.
        unfold tidy. cbn [spaced]. fold tidy.
        rewrite !IH by (left; reflexivity). reflexivity.
    + cbn [replace_from].
      destruct Hn as [Hn|[Hn ->]]; [discriminate|].
      simpl in Hn. destruct (is_token_char c) eqn:Ec; [|discriminate].
      rewrite IH by (right; split; congruence).
      unfold tidy. cbn [spaced].
      destruct (N.eqb_spec c c_space) as [->|]; [discriminate|reflexivity].
Qed.

Lemma token_empty pv : replace_from re_token (fun mt _ => g mt) 0 pv [] = [].
Proof.
  cbn [replace_from]. rewrite exec_token_none by exact I. reflexivity.
Qed.

End TokenSpacing.

Lemma upper_cu_no_space c :
  c <> c_space -> Forall (fun x => x <> c_space) (upper_cu c).
Proof.
  unfold upper_cu, is_lower_az, in_range, c_space. intros H.
  repeat match goal with
         | |- context [if ?b then _ else _] => destruct b eqn:?
         end;
    bool_to_prop; repeat (apply Forall_cons || apply Forall_nil); lia.
Qed.

Lemma lower_cu_no_space c :
  c <> c_space -> Forall (fun x => x <> c_space) (lower_cu c).
Proof.
  unfold lower_cu, is_upper_az, in_range, c_space. intros H.
  repeat match goal with
         | |- context [if ?b then _ else _] => destruct b eqn:?
         end;
    bool_to_prop; repeat (apply Forall_cons || apply Forall_nil); lia.
Qed.

Lemma properNameCapitalizer_no_space mixedCase match_ :
  Forall (fun c => c <> c_space) match_ ->
  Forall (fun c => c <> c_space) (properNameCapitalizer mixedCase match_).
Proof.
  apply properNameCapitalizer_chars;
    auto using upper_cu_no_space, lower_cu_no_space.
Qed.

Lemma trimmed_spacing value :
  let s := trim (replace_g re_spaces (subst [Lit [c_space]])
                   (replace_g re_restrict (subst [Lit [c_space]]) value)) in
  s = [] \/ tidy true s = true.
Proof.
  cbv zeta. unfold trim. apply trim_end_tidy.
  apply trim_start_no_double with (b := false).
  apply collapse_no_double; [left; reflexivity|discriminate].
Qed.

(** C10: the output of [proper] has no leading space, no trailing space and
    no two consecutive spaces; the same holds of the collapsed and trimmed
    text that the token rewriting receives, and the rewriting of a token
    without a space holds no space. *)
Theorem proper_well_spaced (value : jsstring) :
  well_spaced (proper value)
  /\ well_spaced
       (trim (replace_g re_spaces (subst [Lit [c_space]])
                (replace_g re_restrict (subst [Lit [c_space]]) value)))
  /\ (forall mixedCase match_,
        ~ In c_space match_ ->
        ~ In c_space (properNameCapitalizer mixedCase match_)).
Proof.
  pose proof (trimmed_spacing value) as Hs. cbv zeta in Hs.
  split; [|split].
  - apply tidy_well_spaced. unfold proper.
    destruct Hs as [Hs|Hs].
    + left. rewrite Hs. apply token_empty.
    + right. unfold replace_g at 1.
      rewrite token_tidy; [exact Hs| |left; reflexivity].
      intros mt Hne Hmt. split.
      * apply properNameCapitalizer_nonempty, Hne.
      * apply properNameCapitalizer_no_space.
        eapply Forall_impl; [|exact Hmt]. apply token_not_space.
  - apply tidy_well_spaced, Hs.
  - intros mixedCase match_ Hn Hin.
    assert (H : Forall (fun c => c <> c_space) match_).
    { apply Forall_forall. intros c Hc ->. contradiction. }
    apply (properNameCapitalizer_no_space mixedCase) in H.
    rewrite Forall_forall in H. apply H in Hin. apply Hin. reflexivity.
Qed.

Lemma proper_well_spaced_witness :
  ~ In c_space (properNameCapitalizer false (js "o’donnel")).
Proof.
  apply (proj2 (proj2 (proper_well_spaced []))).
  vm_compute. intuition discriminate.
Defined.

(** * The failure policy of [coerce] *)

Section CoerceProps.

Variable fn : Type.
Variable call : fn -> value fn -> completion fn.

(** C9: when a stage of the pipeline throws [error], [.or(otherwise)]
    calls a function [otherwise] on [error] and throws what it returns,
    throws an [otherwise] that is an instance of Error, and returns any
    other [otherwise]. *)
Theorem or_failure_policy (v : value fn) (sanitizers : list fn)
    (otherwise error : value fn) :
  pipe call v sanitizers 0 = Throw error ->
  (forall f thrown,
      otherwise = VFunction f -> call f error = Return thrown ->
      coerce_to_or call v sanitizers otherwise = Throw thrown)
  /\ (instanceofError otherwise = true ->
      coerce_to_or call v sanitizers otherwise = Throw otherwise)
  /\ (typeof otherwise <> TyFunction -> instanceofError otherwise = false ->
      coerce_to_or call v sanitizers otherwise = Return otherwise).
Proof.
  intros Hp. unfold coerce_to_or. rewrite Hp. unfold handleFailure.
  split; [|split].
  - intros f thrown -> Hc. simpl. rewrite Hc. reflexivity.
  - intros Hi. destruct otherwise; try discriminate. reflexivity.
  - intros Ht Hi. rewrite Hi, andb_false_r.
    destruct otherwise; try reflexivity. exfalso. apply Ht. reflexivity.
Qed.

End CoerceProps.

Lemma or_failure_policy_witness :
  coerce_to_or demo_call (VString []) [NonEmpty] (VFunction ErrorFactory)
  = Throw (VError (js "CustomError") (js "Empty string"))
  /\ coerce_to_or demo_call (VString []) [NonEmpty]
       (VError (js "Error") (js "Oh no!"))
     = Throw (VError (js "Error") (js "Oh no!"))
  /\ coerce_to_or demo_call (VString []) [NonEmpty] VUndefined
     = Return VUndefined.
Proof.
  assert (Hp : pipe demo_call (VString []) [NonEmpty] 0
               = Throw (VError (js "Error") (js "Empty string")))
    by reflexivity.
  split; [|split].
  - apply (proj1 (@or_failure_policy _ demo_call _ _ _ _ Hp) ErrorFactory);
      reflexivity.
  - apply (proj1 (proj2 (@or_failure_policy _ demo_call _ _ _ _ Hp))). reflexivity.
  - apply (proj2 (proj2 (@or_failure_policy _ demo_call _ _ _ _ Hp)));
      [discriminate|reflexivity].
Defined.

(** * The pipeline of [coerce] *)

Section PipelineProps.

Variable fn : Type.
Variable call : fn -> value fn -> completion fn.

Lemma skipn_nth_error (l : list fn) : forall i f,
  nth_error l i = Some f -> skipn i l = f :: skipn (S i) l.
Proof.
  induction l as [|x t IH]; intros [|i] f H; try discriminate.
  - inversion H; subst. reflexivity.
  - cbn [nth_error] in H. rewrite (skipn_cons i x t). apply IH, H.
Qed.

Lemma pipe_stages_skipn functions : forall n v index,
  n = List.length functions - index ->
  pipe_stages call n v functions index
  = run_stages call (skipn index functions) v.
Proof.
  induction n as [|n IH]; intros v index Hn; cbn [pipe_stages].
  - rewrite skipn_all2 by lia. reflexivity.
  - destruct (nth_error functions index) as [f|] eqn:E.
    + rewrite (skipn_nth_error _ _ E). cbn [run_stages].
      destruct (call f v); [|reflexivity]. apply IH. lia.
    + apply nth_error_None in E. lia.
Qed.

Lemma pipe_run functions v :
  pipe call v functions 0 = run_stages call functions v.
Proof. unfold pipe. apply pipe_stages_skipn. reflexivity. Qed.

Lemma run_stages_app fs : forall gs v,
  run_stages call (fs ++ gs) v
  = match run_stages call fs v with
    | Return w => run_stages call gs w
    | Throw e => Throw e
    end.
Proof.
  induction fs as [|f t IH]; intros gs v; cbn [app run_stages];
    [reflexivity|].
  destruct (call f v); [apply IH|reflexivity].
Qed.

(** [pipe] applies the functions from left to right, each to the result of
    the one before; a pipeline in two parts is the second part applied to
    the result of the first; the first function that throws ends the
    pipeline with its error, whatever functions follow. *)
Theorem pipe_sequential :
  (forall functions v,
     pipe call v functions 0 = run_stages call functions v)
  /\ (forall fs gs v,
        pipe call v (fs ++ gs) 0
        = match pipe call v fs 0 with
          | Return w => pipe call w gs 0
          | Throw e => Throw e
          end)
  /\ (forall fs f gs v w e,
        pipe call v fs 0 = Return w -> call f w = Throw e ->
        pipe call v (fs ++ f :: gs) 0 = Throw e).
Proof.
  split; [exact pipe_run|]. split.
  - intros fs gs v. rewrite !pipe_run, run_stages_app.
    destruct (run_stages call fs v); [rewrite pipe_run|]; reflexivity.
  - intros fs f gs v w e Hp Hc. rewrite pipe_run in *.
    rewrite run_stages_app, Hp. cbn [run_stages]. rewrite Hc. reflexivity.
Qed.

(** With an [otherwise] that is neither a function nor an instance of
    Error, [coerce] never throws: it returns the result of the pipeline, or
    [otherwise] when a stage throws. *)
Theorem or_default_never_throws (v : value fn) (sanitizers : list fn)
    (otherwise : value fn) :
  typeof otherwise <> TyFunction -> instanceofError otherwise = false ->
  exists result,
    coerce_to_or call v sanitizers otherwise = Return result
    /\ (pipe call v sanitizers 0 = Return result
        \/ (exists error, pipe call v sanitizers 0 = Throw error)
           /\ result = otherwise).
Proof.
  intros Ht Hi. unfold coerce_to_or.
  destruct (pipe call v sanitizers 0) as [r|e].
  - exists r. auto.
  - exists otherwise. split; [|right; eauto].
    unfold handleFailure. rewrite Hi, andb_false_r.
    destruct otherwise; try reflexivity. exfalso. apply Ht. reflexivity.
Qed.

(** With an [otherwise] that is a function or an instance of Error, a
    failure of the pipeline is never turned into a result: [coerce] throws;
    and when the pipeline succeeds, [otherwise] plays no part. *)
Theorem or_throwing_policy (v : value fn) (sanitizers : list fn) :
  (forall otherwise error,
     pipe call v sanitizers 0 = Throw error ->
     typeof otherwise = TyFunction \/ instanceofError otherwise = true ->
     exists thrown, coerce_to_or call v sanitizers otherwise = Throw thrown)
  /\ (forall result otherwise,
        pipe call v sanitizers 0 = Return result ->
        coerce_to_or call v sanitizers otherwise = Return result).
Proof.
  split.
  - intros otherwise error Hp H. unfold coerce_to_or. rewrite Hp.
    unfold handleFailure. destruct H as [H|H].
    + rewrite H. cbn [jstype_eqb].
      destruct (apply_value call otherwise error); eauto.
    + destruct otherwise; try discriminate. cbn. eauto.
  - intros result otherwise Hp. unfold coerce_to_or. rewrite Hp. reflexivity.
Qed.

End PipelineProps.

Lemma pipe_sequential_witness :
  pipe demo_call (VString []) ([] ++ NonEmpty :: [ErrorFactory]) 0
  = Throw (VError (js "Error") (js "Empty string")).
Proof.
  apply (proj2 (proj2 (pipe_sequential demo_call))
           [] NonEmpty [ErrorFactory] (VString []) (VString []));
    reflexivity.
Defined.

Lemma or_default_never_throws_witness :
  exists result,
    coerce_to_or demo_call (VString []) [NonEmpty] VNull = Return result
    /\ (pipe demo_call (VString []) [NonEmpty] 0 = Return result
        \/ (exists error, pipe demo_call (VString []) [NonEmpty] 0 = Throw error)
           /\ result = VNull).
Proof.
  apply (@or_default_never_throws _ demo_call); [discriminate|reflexivity].
Defined.

Lemma or_throwing_policy_witness :
  exists thrown,
    coerce_to_or demo_call (VString []) [NonEmpty] (VFunction ErrorFactory)
    = Throw thrown.
Proof.
  apply (proj1 (or_throwing_policy demo_call (VString []) [NonEmpty])
           (VFunction ErrorFactory) (VError (js "Error") (js "Empty string")));
    [reflexivity|left; reflexivity].
Defined.

(** * The dash and ellipsis rules of [quotes] *)














(** * The other mutators *)

(** ** Deleting and collapsing replacements *)

Lemma replace_chr_del_from p s :
  forall pv, replace_from (Chr p) (subst []) 0 pv s
             = filter (fun c => negb (p c)) s.
Proof.
  induction s as [|c t IH]; intros pv; simpl; [reflexivity|].
  unfold exec; simpl. destruct (p c); simpl; rewrite IH; reflexivity.
Qed.

Lemma replace_chr_del p s :
  replace_g (Chr p) (subst []) s = filter (fun c => negb (p c)) s.
Proof. apply replace_chr_del_from. Qed.

Lemma filter_idem (A : Type) (f : A -> bool) l :
  filter f (filter f l) = filter f l.
Proof.
  induction l as [|a l IH]; simpl; [reflexivity|].
  destruct (f a) eqn:E; simpl; [rewrite E, IH|]; auto.
Qed.

Lemma filter_all (A : Type) (f : A -> bool) l :
  Forall (fun a => f a = true) l -> filter f l = l.
Proof.
  intros H. induction H as [|a l Ha _ IH]; simpl; [reflexivity|].
  rewrite Ha, IH. reflexivity.
Qed.

Lemma filter_Forall (A : Type) (f : A -> bool) l :
  Forall (fun a => f a = true) (filter f l).
Proof.
  induction l as [|a l IH]; simpl; [constructor|].
  destruct (f a) eqn:E; [constructor; assumption|assumption].
Qed.

(** ** [safe] *)

(** [safe] deletes exactly the dangerous code units: what is left is the
    input without them, in the same order, and holds none of them. *)
Theorem safe_removes_dangerous (value : jsstring) :
  safe value = filter (fun c => negb (is_dangerous c)) value
  /\ Forall (fun c => is_dangerous c = false) (safe value)
  /\ (forall c, In c (safe value) <-> In c value /\ is_dangerous c = false).
Proof.
  unfold safe. rewrite replace_chr_del. split; [reflexivity|]. split.
  - eapply Forall_impl; [|apply filter_Forall].
    intros c H. apply negb_true_iff in H. exact H.
  - intros c. rewrite filter_In, negb_true_iff. reflexivity.
Qed.

Lemma safe_removes_dangerous_witness : In 97%N (safe (js "a;b")).
Proof.
  apply (proj2 (proj2 (proj2 (safe_removes_dangerous (js "a;b"))) 97%N)).
  split; [left; reflexivity|reflexivity].
Defined.

(** [safe] is idempotent, and a string without a dangerous code unit is
    returned as it is. *)
Theorem safe_idempotent :
  (forall value, safe (safe value) = safe value)
  /\ (forall value,
        existsb is_dangerous value = false -> safe value = value).
Proof.
  split; intros value.
  - unfold safe. rewrite !replace_chr_del. apply filter_idem.
  - intros H. unfold safe. rewrite replace_chr_del. apply filter_all.
    apply free_of_existsb in H. eapply Forall_impl; [|exact H].
    intros c Hc. simpl in Hc. rewrite Hc. reflexivity.
Qed.

Lemma safe_idempotent_witness :
  safe (js "INSERT INTO foo VALUES bar") = js "INSERT INTO foo VALUES bar".
Proof. apply (proj2 safe_idempotent). vm_compute. reflexivity. Defined.

(** ** [digits] *)

Lemma digits_filter value : digits value = filter is_digit value.
Proof.
  unfold digits. rewrite replace_chr_del. apply filter_ext.
  intros c. unfold is_nondigit. apply negb_involutive.
Qed.

(** [digits] keeps exactly the decimal digits of its input, in order; it
    distributes over concatenation and is idempotent. *)
Theorem digits_keeps_digits :
  (forall value,
     digits value = filter is_digit value
     /\ Forall (fun c => (48 <= c <= 57)%N) (digits value))
  /\ (forall a b, digits (a ++ b) = digits a ++ digits b)
  /\ (forall value, digits (digits value) = digits value).
Proof.
  split; [|split].
  - intros value. split; [apply digits_filter|].
    rewrite digits_filter. eapply Forall_impl; [|apply filter_Forall].
    intros c H. unfold is_digit, in_range in H.
    apply andb_true_iff in H. rewrite !N.leb_le in H. exact H.
  - intros a b. rewrite !digits_filter. apply filter_app.
  - intros value. rewrite !digits_filter. apply filter_idem.
Qed.

(** ** [phone], [phone10], [prettyPhone] and [postalCodeUs5] *)

Lemma m_Chr p k st :
  m (Chr p) k st
  = match rest st with
    | c :: t => if p c then k (MState (S (idx st)) (Some c) t (caps st))
                else None
    | [] => None
    end.
Proof. reflexivity. Qed.

Lemma m_Star r k st :
  m (Star r) k st
  = star_loop (m r) (groups r) k (List.length (rest st)) st.
Proof. reflexivity. Qed.

Lemma replace_first_bol r f s :
  forall c, replace_first_from (Seq Bol r) f (Some c) s = s.
Proof.
  induction s as [|a t IH]; intros c; cbn [replace_first_from];
    unfold exec; rewrite m_Seq, m_Bol; cbn [prev]; [reflexivity|].
  rewrite IH. reflexivity.
Qed.

Lemma strip_leading s :
  replace_1 re_leading_01 (subst []) s
  = skipn (lead (any_of [48%N; 49%N]) s) s.
Proof.
  unfold replace_1, re_leading_01. destruct s as [|c t].
  - reflexivity.
  - cbn [replace_first_from lead]. unfold exec, Plus.
    rewrite m_Seq, m_Bol. cbn [prev]. rewrite m_Seq, m_Chr.
    cbn [rest idx caps].
    destruct (any_of [48%N; 49%N] c) eqn:E.
    + rewrite m_Star. cbn [rest groups].
      rewrite (@star_chr_greedy (any_of [48%N; 49%N]) Some
                 (run_state (any_of [48%N; 49%N]) 1 (Some c) t no_caps));
        [|lia|reflexivity].
      rewrite idx_run_state. reflexivity.
    + rewrite replace_first_bol. reflexivity.
Qed.

Lemma phone_spec value :
  phone value =
  if List.length (phone_digits value) <? 10
  then Err (js "TypeError") (js "Invalid US phone number.")
  else Ok (phone_digits value).
Proof.
  unfold phone, phone_digits. rewrite strip_leading, digits_filter.
  reflexivity.
Qed.

Lemma skipn_lead_head p (s : jsstring) c t :
  skipn (lead p s) s = c :: t -> p c = false.
Proof.
  induction s as [|a s IH]; simpl; [discriminate|].
  destruct (p a) eqn:E; simpl; [exact IH|].
  intros H. inversion H; subst. exact E.
Qed.

Lemma phone_digits_digits value :
  Forall (fun c => is_digit c = true) (phone_digits value).
Proof. apply Forall_skipn, filter_Forall. Qed.

Lemma lead_zero p (s : jsstring) :
  (forall c t, s = c :: t -> p c = false) -> lead p s = 0.
Proof.
  destruct s as [|c t]; [reflexivity|]. intros H. simpl.
  rewrite (H c t eq_refl). reflexivity.
Qed.

Lemma phone_digits_fixed value :
  phone_digits (phone_digits value) = phone_digits value.
Proof.
  unfold phone_digits at 1.
  rewrite (filter_all _ (phone_digits_digits value)).
  rewrite lead_zero; [reflexivity|].
  intros c t E. unfold phone_digits in E.
  eapply skipn_lead_head; eauto.
Qed.

(** A number that [phone] accepts is made of the digits of the input after
    its leading zeros and ones: at least ten decimal digits, the first of
    which is neither 0 nor 1. *)
Theorem phone_result (value valid : jsstring) :
  phone value = Ok valid ->
  valid = phone_digits value
  /\ Forall (fun c => (48 <= c <= 57)%N) valid
  /\ 10 <= List.length valid
  /\ (forall c t, valid = c :: t -> c <> 48%N /\ c <> 49%N).
Proof.
  rewrite phone_spec.
  destruct (List.length (phone_digits value) <? 10) eqn:E; [discriminate|].
  intros H. inversion H; subst valid; clear H.
  apply Nat.ltb_ge in E. split; [reflexivity|]. split; [|split; [exact E|]].
  - eapply Forall_impl; [|apply phone_digits_digits].
    intros c H. unfold is_digit, in_range in H.
    apply andb_true_iff in H. rewrite !N.leb_le in H. exact H.
  - intros c t Hc. unfold phone_digits in Hc.
    apply skipn_lead_head in Hc. unfold any_of in Hc. simpl in Hc.
    rewrite orb_false_r in Hc. apply orb_false_iff in Hc.
    rewrite !N.eqb_neq in Hc. exact Hc.
Qed.

Lemma phone_result_witness :
  10 <= List.length (js "2223334444555").
Proof.
  apply (@phone_result (js "+1 (222) 333-4444x555") (js "2223334444555")).
  vm_compute. reflexivity.
Defined.

(** [phone] throws exactly when fewer than ten digits are left after the
    leading zeros and ones. *)
Theorem phone_fails_iff (value : jsstring) :
  (exists name message, phone value = Err name message)
  <-> List.length (phone_digits value) < 10.
Proof.
  rewrite phone_spec.
  destruct (List.length (phone_digits value) <? 10) eqn:E.
  - apply Nat.ltb_lt in E. split; [intros _; exact E|eauto].
  - apply Nat.ltb_ge in E. split; [intros (n & m & H); discriminate|lia].
Qed.

Lemma phone_fails_iff_witness :
  exists name message, phone (js "333-4444") = Err name message.
Proof.
  apply (proj2 (phone_fails_iff (js "333-4444"))). vm_compute. lia.
Defined.

Lemma phone_by_digits a b : digits a = digits b -> phone a = phone b.
Proof.
  intros H. rewrite !phone_spec. unfold phone_digits.
  rewrite <- !digits_filter, H. reflexivity.
Qed.

Lemma phone_fixed value :
  10 <= List.length (phone_digits value) ->
  phone (phone_digits value) = Ok (phone_digits value).
Proof.
  intros H. rewrite phone_spec, phone_digits_fixed.
  apply Nat.ltb_ge in H. rewrite H. reflexivity.
Qed.

(** [phone] looks at the digits of its input only, and it returns its own
    results unchanged. *)
Theorem phone_ignores_formatting :
  (forall a b, digits a = digits b -> phone a = phone b)
  /\ (forall value, phone (digits value) = phone value)
  /\ (forall value valid, phone value = Ok valid -> phone valid = Ok valid).
Proof.
  split; [exact phone_by_digits|]. split.
  - intros value. apply phone_by_digits. rewrite !digits_filter.
    apply filter_idem.
  - intros value valid H. rewrite phone_spec in H.
    destruct (Nat.ltb_spec (List.length (phone_digits value)) 10) as [E|E];
      [discriminate|].
    assert (Hv : valid = phone_digits value) by congruence.
    subst valid. apply phone_fixed, E.
Qed.

Lemma phone_ignores_formatting_witness :
  phone (js "(222) 333-4444") = phone (js "222.333.4444")
  /\ phone (js "2223334444") = Ok (js "2223334444").
Proof.
  split.
  - apply (proj1 phone_ignores_formatting). vm_compute. reflexivity.
  - apply (proj2 (proj2 phone_ignores_formatting) (js "+1 (222) 333-4444")).
    vm_compute. reflexivity.
Defined.

(** [phone10] accepts exactly the inputs that [phone] accepts with ten
    digits, and returns the same digits. *)
Theorem phone10_result (value valid : jsstring) :
  phone10 value = Ok valid <->
  phone value = Ok valid /\ List.length valid = 10.
Proof.
  unfold phone10. destruct (phone value) as [v|n m].
  - destruct (List.length v =? 10) eqn:E; simpl.
    + apply Nat.eqb_eq in E. split.
      * intros H. inversion H; subst. auto.
      * intros [H _]. exact H.
    + apply Nat.eqb_neq in E. split; [discriminate|].
      intros [H Hl]. inversion H; subst. contradiction.
  - split; [discriminate|]. intros [H _]. discriminate.
Qed.

Lemma phone10_result_witness :
  phone10 (js "+1 (222) 333-4444") = Ok (js "2223334444").
Proof.
  apply (proj2 (phone10_result (js "+1 (222) 333-4444") (js "2223334444"))).
  split; vm_compute; reflexivity.
Defined.

Lemma postalCodeUs5_spec value :
  postalCodeUs5 value =
  if List.length (filter is_digit value) <? 5
  then Err (js "TypeError") (js "Invalid US postal code")
  else Ok (firstn 5 (filter is_digit value)).
Proof.
  unfold postalCodeUs5. cbv zeta. rewrite digits_filter, length_firstn.
  destruct (Nat.ltb_spec (List.length (filter is_digit value)) 5) as [H|H].
  - rewrite Nat.min_r by lia.
    replace (List.length (filter is_digit value) =? 5) with false
      by (symmetry; apply Nat.eqb_neq; lia).
    reflexivity.
  - rewrite Nat.min_l by lia. reflexivity.
Qed.

(** [postalCodeUs5] returns the first five digits of its input and throws
    exactly when the input holds fewer than five digits; its results are
    returned unchanged. *)
Theorem postalCodeUs5_result (value : jsstring) :
  (forall code,
     postalCodeUs5 value = Ok code ->
     code = firstn 5 (filter is_digit value)
     /\ List.length code = 5
     /\ Forall (fun c => (48 <= c <= 57)%N) code
     /\ postalCodeUs5 code = Ok code)
  /\ ((exists name message, postalCodeUs5 value = Err name message)
      <-> List.length (filter is_digit value) < 5).
Proof.
  rewrite postalCodeUs5_spec.
  destruct (Nat.ltb_spec (List.length (filter is_digit value)) 5) as [E|E].
  - split; [discriminate|]. split; [intros _; exact E|eauto].
  - split; [|split; [intros (n & m & H); discriminate|lia]].
    intros code H.
    assert (Hc : code = firstn 5 (filter is_digit value)) by congruence.
    clear H. subst code.
    assert (Hd : Forall (fun c => is_digit c = true)
                   (firstn 5 (filter is_digit value)))
      by apply Forall_firstn, filter_Forall.
    assert (Hl : List.length (firstn 5 (filter is_digit value)) = 5)
      by (rewrite length_firstn; lia).
    split; [reflexivity|]. split; [exact Hl|]. split.
    + eapply Forall_impl; [|exact Hd].
      intros c H. unfold is_digit, in_range in H.
      apply andb_true_iff in H. rewrite !N.leb_le in H. exact H.
    + rewrite postalCodeUs5_spec, (filter_all _ Hd), Hl.
      cbn [Nat.ltb Nat.leb]. rewrite firstn_firstn. reflexivity.
Qed.

Lemma postalCodeUs5_result_witness :
  List.length (js "10001") = 5.
Proof.
  apply (proj1 (postalCodeUs5_result (js "10001-1234")) (js "10001")).
  vm_compute. reflexivity.
Defined.

Lemma run_state_all p : forall s i pv cs,
  Forall (fun c => p c = true) s ->
  exists pv', run_state p i pv s cs = MState (i + List.length s) pv' [] cs.
Proof.
  induction s as [|c t IH]; intros i pv cs H; simpl.
  - exists pv. rewrite Nat.add_0_r. reflexivity.
  - inversion H; subst. rewrite H2.
    destruct (IH (S i) (Some c) cs H3) as [pv' E]. exists pv'.
    rewrite E. f_equal. lia.
Qed.

Lemma pretty_replace (d : jsstring) :
  Forall (fun c => is_digit c = true) d -> 10 <= List.length d ->
  (if List.length d =? 10
   then replace_1 re_phone10 (subst tmpl_phone10) d
   else replace_1 re_phone_ext (subst tmpl_phone_ext) d) = pretty_form d.
Proof.
  intros H L.
  destruct d as [|d1 [|d2 [|d3 [|d4 [|d5 [|d6 [|d7 [|d8 [|d9 [|d10 d]]]]]]]]]];
    try (simpl in L; lia).
  clear L.
  do 10 match goal with
        | H : Forall _ (_ :: _) |- _ => inversion H; subst; clear H
        end.
  destruct d as [|e r].
  - unfold replace_1. cbn -[is_digit].
    repeat match goal with
           | H : is_digit _ = true |- _ => rewrite H; clear H
           end.
    reflexivity.
  - match goal with
    | H : Forall _ (_ :: _) |- _ => inversion H; subst; clear H
    end.
    unfold replace_1, pretty_form. cbn -[is_digit star_loop].
    repeat match goal with
           | H : is_digit _ = true |- _ => rewrite H; clear H
           end.
    match goal with
    | H : Forall _ r |- _ =>
      destruct (@run_state_all is_digit r 11 (Some e)
                  (set_cap 3 [d7; d8; d9; d10]
                     (set_cap 2 [d4; d5; d6] (set_cap 1 [d1; d2; d3] no_caps)))
                  H) as [pv' E]
    end.
    match goal with
    | |- context [star_loop ?b ?g ?k ?f ?st] =>
      change (star_loop b g k f st)
        with (star_loop (m (Chr is_digit)) g k f st)
    end.
    erewrite star_chr_greedy; [|lia|rewrite E; reflexivity].
    cbn. rewrite firstn_all, skipn_all, !app_nil_r. reflexivity.
Qed.

Lemma prettyPhone_spec (value : jsstring) :
  prettyPhone value =
  match phone value with
  | Ok valid => Ok (pretty_form valid)
  | Err name message => Err name message
  end.
Proof.
  unfold prettyPhone. rewrite phone_spec.
  destruct (Nat.ltb_spec (List.length (phone_digits value)) 10) as [E|E];
    [reflexivity|].
  destruct (List.length (phone_digits value) =? 10) eqn:E10;
    f_equal;
    generalize (pretty_replace (phone_digits_digits value) E);
    rewrite E10; auto.
Qed.

Lemma pretty_form_parts (d : jsstring) :
  firstn 3 d ++ firstn 3 (skipn 3 d) ++ firstn 4 (skipn 6 d) ++ skipn 10 d
  = d.
Proof.
  change (skipn 10 d) with (skipn (4 + 6) d).
  rewrite <- skipn_skipn, firstn_skipn.
  change (skipn 6 d) with (skipn (3 + 3) d).
  rewrite <- skipn_skipn, !firstn_skipn. reflexivity.
Qed.

(** [prettyPhone] accepts what [phone] accepts and lays the digits out as
    [(NNN) NNN-NNNN], with [ ext ] and the remaining digits after them when
    there are more than ten; it fails with the error of [phone]. *)
Theorem prettyPhone_form (value : jsstring) :
  (forall valid, phone value = Ok valid ->
     prettyPhone value = Ok (pretty_form valid))
  /\ (forall name message, phone value = Err name message ->
        prettyPhone value = Err name message).
Proof.
  rewrite prettyPhone_spec.
  split; [intros valid H|intros name message H]; rewrite H; reflexivity.
Qed.

Lemma prettyPhone_form_witness :
  prettyPhone (js "1-222-333-4444") = Ok (js "(222) 333-4444")
  /\ prettyPhone (js "222 333 4444 #555") = Ok (js "(222) 333-4444 ext 555").
Proof.
  split.
  - apply (proj1 (prettyPhone_form (js "1-222-333-4444")) (js "2223334444")).
    vm_compute. reflexivity.
  - apply (proj1 (prettyPhone_form (js "222 333 4444 #555"))
             (js "2223334444555")).
    vm_compute. reflexivity.
Defined.

Lemma digits_pretty_form d :
  Forall (fun c => is_digit c = true) d -> digits (pretty_form d) = d.
Proof.
  intros H. rewrite digits_filter. unfold pretty_form.
  assert (F : forall n, filter is_digit (firstn n d) = firstn n d).
  { intros n. apply filter_all, Forall_firstn, H. }
  assert (FS : forall n k, filter is_digit (firstn n (skipn k d))
                           = firstn n (skipn k d)).
  { intros n k. apply filter_all, Forall_firstn, Forall_skipn, H. }
  assert (T : filter is_digit
                match skipn 10 d with
                | [] => []
                | _ :: _ => [32%N; 101%N; 120%N; 116%N; 32%N] ++ skipn 10 d
                end = skipn 10 d).
  { generalize (filter_all _ (Forall_skipn 10 H)).
    destruct (skipn 10 d); [reflexivity|].
    intros E. rewrite filter_app. exact E. }
  rewrite !filter_app, F, !FS, T. apply pretty_form_parts.
Qed.

(** The digits of a number laid out by [prettyPhone] are the digits that
    [phone] returns, so that [phone] reads the number back and
    [prettyPhone] leaves its own results as they are. *)
Theorem prettyPhone_round_trip (value pretty : jsstring) :
  prettyPhone value = Ok pretty ->
  digits pretty = phone_digits value
  /\ phone pretty = phone value
  /\ prettyPhone pretty = Ok pretty.
Proof.
  rewrite prettyPhone_spec, phone_spec.
  destruct (Nat.ltb_spec (List.length (phone_digits value)) 10) as [E|E];
    [discriminate|].
  intros H.
  assert (Hp : pretty = pretty_form (phone_digits value)) by congruence.
  clear H. subst pretty.
  assert (D : digits (pretty_form (phone_digits value)) = phone_digits value)
    by apply digits_pretty_form, phone_digits_digits.
  assert (P : phone (pretty_form (phone_digits value))
              = Ok (phone_digits value)).
  { rewrite <- (phone_fixed _ E). apply phone_by_digits.
    rewrite D, digits_filter.
    symmetry. apply filter_all, phone_digits_digits. }
  split; [exact D|]. split; [exact P|].
  rewrite prettyPhone_spec, P. reflexivity.
Qed.

Lemma prettyPhone_round_trip_witness :
  digits (js "(222) 333-4444 ext 555") = phone_digits (js "+1 222.333.4444 x555").
Proof.
  apply (@prettyPhone_round_trip (js "+1 222.333.4444 x555")
           (js "(222) 333-4444 ext 555")).
  vm_compute. reflexivity.
Defined.

(** ** Runs of a character class: [spaces] and [email] *)

Lemma exec_plus_chr p pv c t :
  p c = true ->
  exec (Plus (Chr p)) pv (c :: t) = Some (run_state p 1 (Some c) t no_caps).
Proof.
  intros H. unfold exec, Plus. rewrite m_Seq, m_Chr. cbn [rest idx caps].
  rewrite H, m_Star. cbn [rest groups].
  apply star_chr_greedy; [lia|reflexivity].
Qed.

Lemma exec_plus_chr_none p pv s :
  (forall c t, s = c :: t -> p c = false) ->
  exec (Plus (Chr p)) pv s = None.
Proof.
  intros H. unfold exec, Plus. rewrite m_Seq, m_Chr. cbn [rest].
  destruct s as [|c t]; [reflexivity|].
  rewrite (H c t eq_refl). reflexivity.
Qed.

Lemma replace_plus_squeeze p (f : replacer) l :
  (forall mt cs, f mt cs = l) ->
  forall s pv,
    replace_from (Plus (Chr p)) f 0 pv s = squeeze p l false s
    /\ replace_from (Plus (Chr p)) f (lead p s) pv s = squeeze p l true s.
Proof.
  intros Hf. induction s as [|c t IH]; intros pv.
  - cbn [replace_from lead squeeze].
    rewrite exec_plus_chr_none by (intros; discriminate). auto.
  - cbn [lead squeeze]. destruct (p c) eqn:E.
    + split.
      * cbn [replace_from]. rewrite exec_plus_chr by exact E.
        rewrite idx_run_state, Hf. cbn [Nat.add].
        rewrite (proj2 (IH (Some c))). reflexivity.
      * cbn [replace_from]. rewrite (proj2 (IH (Some c))). reflexivity.
    + assert (H0 : replace_from (Plus (Chr p)) f 0 pv (c :: t)
                   = c :: squeeze p l false t).
      { cbn [replace_from]. rewrite exec_plus_chr_none.
        - rewrite (proj1 (IH (Some c))). reflexivity.
        - intros c' t' H. inversion H; subst. exact E. }
      split; exact H0.
Qed.

Lemma replace_plus_del p s :
  replace_g (Plus (Chr p)) (subst []) s = filter (fun c => negb (p c)) s.
Proof.
  unfold replace_g.
  rewrite (proj1 (@replace_plus_squeeze p (subst []) [] (fun _ _ => eq_refl)
                     s None)).
  assert (H : forall b, squeeze p [] b s = filter (fun c => negb (p c)) s).
  { induction s as [|c t IH]; intros b; simpl; [reflexivity|].
    destruct (p c); simpl; [destruct b; apply IH|rewrite IH; reflexivity]. }
  apply H.
Qed.

Lemma spaces_spec value :
  spaces value = squeeze is_space [c_space] false (map regular value).
Proof.
  unfold spaces, replace_g at 1.
  rewrite (proj1 (@replace_plus_squeeze is_space (subst [Lit [c_space]])
                     [c_space] (fun _ _ => eq_refl) _ None)).
  rewrite replace_chr. f_equal. apply flat_map_single.
  intros c. unfold regular. destruct (is_irregular_space c); reflexivity.
Qed.

Lemma regular_not_irregular c : is_irregular_space (regular c) = false.
Proof.
  unfold regular. destruct (is_irregular_space c) eqn:E; [reflexivity|exact E].
Qed.

Lemma regular_fixed c : is_irregular_space c = false -> regular c = c.
Proof. unfold regular. intros ->. reflexivity. Qed.

Lemma space_like_regular c : space_like (regular c) = space_like c.
Proof.
  unfold regular. destruct (is_irregular_space c) eqn:E; [|reflexivity].
  unfold space_like. rewrite E, orb_true_r. reflexivity.
Qed.

Lemma squeeze_chars (P : char -> Prop) p l s :
  Forall P l -> Forall P (filter (fun c => negb (p c)) s) ->
  forall b, Forall P (squeeze p l b s).
Proof.
  intros Hl. induction s as [|c t IH]; intros H b; simpl; [constructor|].
  simpl in H. destruct (p c); simpl in H.
  - apply Forall_app. split; [destruct b; [constructor|exact Hl]|].
    apply IH, H.
  - inversion H; subst. constructor; [assumption|]. apply IH. assumption.
Qed.

Lemma squeeze_filter (q : char -> bool) p l s :
  (forall c, q c = true -> p c = false) -> filter q l = [] ->
  forall b, filter q (squeeze p l b s) = filter q s.
Proof.
  intros Hq Hl. induction s as [|c t IH]; intros b; simpl; [reflexivity|].
  destruct (p c) eqn:E.
  - rewrite filter_app, IH.
    assert (Hc : q c = false).
    { destruct (q c) eqn:Eq; [|reflexivity].
      apply Hq in Eq. congruence. }
    rewrite Hc. destruct b; [reflexivity|]. rewrite Hl. reflexivity.
  - simpl. rewrite IH. reflexivity.
Qed.

Lemma squeeze_no_double s : forall b,
  no_double b (squeeze is_space [c_space] b s) = true.
Proof.
  unfold no_double. induction s as [|c t IH]; intros b; [reflexivity|].
  cbn [squeeze]. destruct (is_space c) eqn:E.
  - destruct b; cbn [app]; [apply IH|].
    cbn [spaced]. rewrite N.eqb_refl. cbn [negb andb]. apply IH.
  - cbn [spaced]. destruct (N.eqb c c_space) eqn:Ec.
    + apply sp_is_space in Ec. congruence.
    + apply IH.
Qed.

Lemma no_double_weaken s b : no_double b s = true -> no_double false s = true.
Proof.
  unfold no_double. destruct s as [|c t]; [reflexivity|]. cbn [spaced].
  destruct (N.eqb c c_space); [|auto].
  intros H. apply andb_true_iff in H. apply H.
Qed.

Lemma no_double_sound a x : forall b,
  no_double b (a ++ [c_space; c_space] ++ x) = false.
Proof.
  unfold no_double. induction a as [|c t IH]; intros b; simpl.
  - apply andb_false_r.
  - destruct (N.eqb c c_space); [rewrite IH; apply andb_false_r|apply IH].
Qed.

Lemma no_double_complete s : forall b,
  (b = true -> forall t, s <> c_space :: t) ->
  (forall a x, s <> a ++ [c_space; c_space] ++ x) ->
  no_double b s = true.
Proof.
  unfold no_double. induction s as [|c t IH]; intros b Hb Hd; [reflexivity|].
  cbn [spaced]. destruct (N.eqb_spec c c_space) as [->|Hc].
  - destruct b; [exfalso; eapply Hb; reflexivity|].
    cbn [negb andb]. apply IH.
    + intros _ t' ->. apply (Hd [] t'). reflexivity.
    + intros a x ->. apply (Hd (c_space :: a) x). reflexivity.
  - apply IH; [discriminate|].
    intros a x ->. apply (Hd (c :: a) x). reflexivity.
Qed.

Lemma squeeze_fixed s : forall b,
  Forall (fun c => c = c_space \/ is_space c = false) s ->
  no_double b s = true ->
  squeeze is_space [c_space] b s = s.
Proof.
  unfold no_double. induction s as [|c t IH]; intros b H Hn; [reflexivity|].
  inversion H as [|? ? Hc Ht]; subst. cbn [squeeze]. cbn [spaced] in Hn.
  destruct (N.eqb_spec c c_space) as [->|Ec].
  - apply andb_true_iff in Hn. destruct Hn as [Hb Hn].
    destruct b; [discriminate|].
    change (is_space c_space) with true. cbn [app]. rewrite IH; auto.
  - destruct Hc as [Hc|Hc]; [contradiction|]. rewrite Hc, IH; auto.
Qed.

Lemma spaces_chars value :
  Forall (fun c => c = c_space \/ space_like c = false) (spaces value).
Proof.
  rewrite spaces_spec.
  apply squeeze_chars; [constructor; [left; reflexivity|constructor]|].
  induction value as [|c t IH]; cbn [map filter]; [constructor|].
  destruct (is_space (regular c)) eqn:E; cbn [negb]; [exact IH|].
  constructor; [|exact IH]. right. unfold space_like.
  rewrite E, regular_not_irregular. reflexivity.
Qed.

Lemma spaces_no_double value : no_double false (spaces value) = true.
Proof. rewrite spaces_spec. apply squeeze_no_double. Qed.

Lemma spaces_others value :
  filter (fun c => negb (space_like c)) (spaces value)
  = filter (fun c => negb (space_like c)) value.
Proof.
  rewrite spaces_spec, squeeze_filter; [| |reflexivity].
  - induction value as [|c t IH]; cbn [map filter]; [reflexivity|].
    rewrite space_like_regular.
    destruct (space_like c) eqn:E; cbn [negb]; [exact IH|].
    rewrite IH. f_equal. apply regular_fixed.
    unfold space_like in E. apply orb_false_iff in E. apply E.
  - intros c H. apply negb_true_iff in H. unfold space_like in H.
    apply orb_false_iff in H. apply H.
Qed.

(** ** [spaces] *)

(** In the result of [spaces] the only space-like code unit is U+0020 and no
    two of them are adjacent; the other code units are those of the input,
    in the same order. *)
Theorem spaces_normal (value : jsstring) :
  Forall (fun c => c = c_space \/ space_like c = false) (spaces value)
  /\ (forall a b, spaces value <> a ++ [c_space; c_space] ++ b)
  /\ filter (fun c => negb (space_like c)) (spaces value)
     = filter (fun c => negb (space_like c)) value.
Proof.
  split; [apply spaces_chars|]. split; [|apply spaces_others].
  intros a b E. pose proof (spaces_no_double value) as H.
  rewrite E, no_double_sound in H. discriminate.
Qed.

Lemma spaces_fixed s :
  Forall (fun c => c = c_space \/ space_like c = false) s ->
  no_double false s = true -> spaces s = s.
Proof.
  intros H Hn. rewrite spaces_spec.
  assert (Hm : map regular s = s).
  { clear Hn. induction H as [|c t Hc _ IH]; simpl; [reflexivity|].
    rewrite IH. f_equal. destruct Hc as [->|Hc]; [reflexivity|].
    apply regular_fixed. unfold space_like in Hc.
    apply orb_false_iff in Hc. apply Hc. }
  rewrite Hm. apply squeeze_fixed; [|exact Hn].
  eapply Forall_impl; [|exact H].
  intros c [Hc|Hc]; [left; exact Hc|right].
  unfold space_like in Hc. apply orb_false_iff in Hc. apply Hc.
Qed.

(** [spaces] is idempotent, and it returns unchanged a string whose only
    space-like code unit is U+0020 and that has no two adjacent spaces. *)
Theorem spaces_idempotent :
  (forall value, spaces (spaces value) = spaces value)
  /\ (forall s,
        Forall (fun c => c = c_space \/ space_like c = false) s ->
        (forall a b, s <> a ++ [c_space; c_space] ++ b) ->
        spaces s = s).
Proof.
  split.
  - intros value. apply spaces_fixed;
      [apply spaces_chars|apply spaces_no_double].
  - intros s H Hd. apply spaces_fixed; [exact H|].
    apply no_double_complete; [discriminate|exact Hd].
Qed.

Lemma spaces_idempotent_witness :
  spaces (js "a b  c") = js "a b c" /\ spaces (js "a b c") = js "a b c".
Proof.
  split; [vm_compute; reflexivity|].
  apply (proj2 spaces_idempotent).
  - repeat (apply Forall_cons || apply Forall_nil);
      (left; reflexivity) || (right; reflexivity).
  - intros a b E.
    assert (H : no_double false (js "a b c") = true) by (vm_compute; reflexivity).
    rewrite E, no_double_sound in H. discriminate.
Defined.

(** ** [trim] after [spaces] *)

(** After [spaces], [trim] leaves a string with no space-like code unit but
    single U+0020 between other code units: no leading space, no trailing
    space and no two adjacent spaces. *)
Theorem trim_spaces_well_spaced (value : jsstring) :
  well_spaced (trim (spaces value))
  /\ Forall (fun c => c = c_space \/ space_like c = false)
       (trim (spaces value)).
Proof.
  split.
  - apply tidy_well_spaced. unfold trim. apply trim_end_tidy.
    apply trim_start_no_double with (b := false). apply spaces_no_double.
  - apply trim_chars, spaces_chars.
Qed.

(** ** [trim] *)

Lemma trim_start_split s :
  exists a, s = a ++ trim_start s /\ forallb is_space a = true.
Proof.
  induction s as [|c t IH]; [exists []; auto|]. cbn [trim_start].
  destruct (is_space c) eqn:E.
  - destruct IH as (a & Ha & Hs). exists (c :: a). split.
    + cbn [app]. rewrite <- Ha. reflexivity.
    + cbn [forallb]. rewrite E, Hs. reflexivity.
  - exists []. auto.
Qed.

Lemma trim_end_split s :
  exists b, s = trim_end s ++ b /\ forallb is_space b = true.
Proof.
  induction s as [|c t IH]; [exists []; auto|]. cbn [trim_end].
  destruct IH as (b & Hb & Hs).
  destruct (trim_end t) as [|a t'].
  - destruct (is_space c) eqn:E.
    + exists (c :: b). cbn [app] in Hb. subst t. split; [reflexivity|].
      cbn [forallb]. rewrite E. exact Hs.
    + exists b. cbn [app] in Hb. subst t. auto.
  - exists b. rewrite Hb at 1. auto.
Qed.

Lemma trim_start_head s c t : trim_start s = c :: t -> is_space c = false.
Proof.
  induction s as [|a s IH]; cbn [trim_start]; [discriminate|].
  destruct (is_space a) eqn:E; [exact IH|].
  intros H. inversion H; subst. exact E.
Qed.

Lemma trim_end_head s c t :
  (forall c' t', s = c' :: t' -> is_space c' = false) ->
  trim_end s = c :: t -> is_space c = false.
Proof.
  destruct s as [|a s]; cbn [trim_end]; [discriminate|].
  intros Ha. specialize (Ha a s eq_refl).
  destruct (trim_end s); rewrite ?Ha; intros H; inversion H; subst; exact Ha.
Qed.

Lemma trim_end_last s : forall t c,
  trim_end s = t ++ [c] -> is_space c = false.
Proof.
  induction s as [|a s IH]; intros t c; cbn [trim_end].
  - destruct t; discriminate.
  - destruct (trim_end s) as [|x r].
    + destruct (is_space a) eqn:E; [destruct t; discriminate|].
      destruct t as [|y [|z t]]; try discriminate.
      intros H. inversion H; subst. exact E.
    + destruct t as [|y t]; [discriminate|].
      cbn [app]. intros H. inversion H; subst. eapply IH. eassumption.
Qed.

Lemma trim_start_fixed s :
  (forall c t, s = c :: t -> is_space c = false) -> trim_start s = s.
Proof.
  destruct s as [|c t]; [reflexivity|]. intros H. cbn [trim_start].
  rewrite (H c t eq_refl). reflexivity.
Qed.

Lemma trim_end_fixed s :
  (forall t c, s = t ++ [c] -> is_space c = false) -> trim_end s = s.
Proof.
  induction s as [|a s IH]; [reflexivity|]. intros H. cbn [trim_end].
  rewrite IH.
  - destruct s as [|x r]; [|reflexivity].
    rewrite (H [] a eq_refl). reflexivity.
  - intros t c ->. apply (H (a :: t) c). reflexivity.
Qed.

Lemma trim_empty_iff s : trim s = [] <-> forallb is_space s = true.
Proof.
  unfold trim. split.
  - intros H. destruct (trim_start_split s) as (a & Ha & Hs).
    destruct (trim_end_split (trim_start s)) as (b & Hb & Hsb).
    rewrite H in Hb. cbn [app] in Hb. rewrite Ha, Hb, forallb_app.
    apply andb_true_iff. split; assumption.
  - induction s as [|c t IH]; [reflexivity|]. cbn [forallb trim_start].
    intros H. apply andb_true_iff in H. destruct H as [Hc Ht].
    rewrite Hc. apply IH, Ht.
Qed.

Lemma trim_head value c t : trim value = c :: t -> is_space c = false.
Proof.
  unfold trim. apply trim_end_head. intros c' t'. apply trim_start_head.
Qed.

Lemma trim_last value t c : trim value = t ++ [c] -> is_space c = false.
Proof. unfold trim. apply trim_end_last. Qed.

Lemma trim_fixed s :
  (forall c t, s = c :: t -> is_space c = false) ->
  (forall t c, s = t ++ [c] -> is_space c = false) ->
  trim s = s.
Proof.
  intros Hh Hl. unfold trim. rewrite (trim_start_fixed Hh).
  apply trim_end_fixed, Hl.
Qed.

Lemma trim_idem value : trim (trim value) = trim value.
Proof.
  apply trim_fixed; [apply trim_head|apply trim_last].
Qed.

(** [trim] takes white space off both ends and nothing else: the input is
    its result between two runs of white space, the result neither starts
    nor ends with white space, and [trim] is idempotent. *)
Theorem trim_result (value : jsstring) :
  (exists a b, value = a ++ trim value ++ b
               /\ forallb is_space a = true /\ forallb is_space b = true)
  /\ (forall c t, trim value = c :: t -> is_space c = false)
  /\ (forall t c, trim value = t ++ [c] -> is_space c = false)
  /\ trim (trim value) = trim value.
Proof.
  split; [|split; [apply trim_head|split; [apply trim_last|apply trim_idem]]].
  destruct (trim_start_split value) as (a & Ha & Hs).
  destruct (trim_end_split (trim_start value)) as (b & Hb & Hsb).
  exists a, b. unfold trim. rewrite <- Hb. auto.
Qed.

Lemma trim_result_witness : is_space 97%N = false.
Proof.
  apply (proj1 (proj2 (trim_result (js " a b "))) 97%N (js " b")).
  vm_compute. reflexivity.
Defined.

(** ** [email] *)

Lemma filter_nil_forallb (p : char -> bool) s :
  filter (fun c => negb (p c)) s = [] <-> forallb p s = true.
Proof.
  induction s as [|c t IH]; cbn [filter forallb]; [tauto|].
  destruct (p c); cbn [negb andb]; [exact IH|split; discriminate].
Qed.

Lemma is_space_false c :
  (33 <= c < 160)%N \/ (161 <= c < 5760)%N -> is_space c = false.
Proof.
  unfold is_space, in_range. intros H. bool_to_prop. lia.
Qed.

Lemma is_upper_az_false c :
  (c < 65)%N \/ (90 < c)%N -> is_upper_az c = false.
Proof. unfold is_upper_az, in_range. intros H. bool_to_prop. lia. Qed.

Lemma lower_cu_fixed x :
  (x < 65)%N \/ (90 < x < 192)%N \/ (222 < x)%N -> x <> 376%N ->
  lower_cu x = [x].
Proof.
  intros H Hx. unfold lower_cu.
  rewrite is_upper_az_false by lia.
  destruct (x =? 215)%N; [reflexivity|].
  replace (in_range 192%N 222%N x) with false
    by (symmetry; unfold in_range; bool_to_prop; lia).
  replace (x =? 376)%N with false by (symmetry; apply N.eqb_neq; exact Hx).
  reflexivity.
Qed.

Lemma lower_cu_facts c :
  exists x, lower_cu c = [x] /\ is_space x = is_space c
            /\ is_upper_az x = false /\ lower_cu x = [x].
Proof.
  unfold lower_cu at 1.
  destruct (is_upper_az c) eqn:E1;
    [|destruct (c =? 215)%N eqn:E2;
      [|destruct (in_range 192%N 222%N c) eqn:E3;
        [|destruct (c =? 376)%N eqn:E4]]];
    eexists; (split; [reflexivity|]).
  - assert (H : (65 <= c <= 90)%N)
      by (unfold is_upper_az, in_range in E1; bool_to_prop; exact E1).
    rewrite !is_space_false, is_upper_az_false, lower_cu_fixed by lia. auto.
  - apply N.eqb_eq in E2. subst c. vm_compute. auto.
  - assert (H : (192 <= c <= 222)%N)
      by (unfold in_range in E3; bool_to_prop; exact E3).
    rewrite !is_space_false, is_upper_az_false, lower_cu_fixed by lia. auto.
  - apply N.eqb_eq in E4. subst c. vm_compute. auto.
  - split; [reflexivity|]. split; [exact E1|].
    unfold lower_cu. rewrite E1, E2, E3, E4. reflexivity.
Qed.

Lemma email_spec value :
  email value
  = nonempty (toLowerCase (filter (fun c => negb (is_space c)) value)).
Proof.
  unfold email, re_whitespace. rewrite replace_plus_del. f_equal.
  unfold toLowerCase.
  induction value as [|c t IH]; [reflexivity|]. cbn [flat_map filter].
  destruct (lower_cu_facts c) as (x & Hx & Hs & _). rewrite filter_app, IH.
  rewrite Hx. cbn [filter]. rewrite Hs.
  destruct (is_space c); cbn [negb flat_map app]; [reflexivity|].
  rewrite Hx. reflexivity.
Qed.

Lemma toLowerCase_facts s :
  Forall (fun c => is_space c = false) s ->
  Forall (fun c => is_space c = false /\ is_upper_az c = false)
    (toLowerCase s)
  /\ toLowerCase (toLowerCase s) = toLowerCase s.
Proof.
  unfold toLowerCase. intros H.
  induction H as [|c t Hc _ [IH1 IH2]]; [split; [constructor|reflexivity]|].
  cbn [flat_map]. destruct (lower_cu_facts c) as (x & Hx & Hs & Hu & Hl).
  rewrite Hx. cbn [app flat_map]. rewrite Hl, IH2. cbn [app].
  split; [|reflexivity]. constructor; [|exact IH1].
  split; [congruence|exact Hu].
Qed.

(** Over U+0000 to U+00FF, where the case table is that of Unicode: an
    address that [email] accepts is the input in lower case without its
    white space, it is not empty and [email] returns it unchanged; [email]
    throws exactly when the input is white space only. *)
Theorem email_result (value : jsstring) :
  Forall (fun c => (c <= 255)%N) value ->
  (forall address,
     email value = Ok address ->
     address = toLowerCase (filter (fun c => negb (is_space c)) value)
     /\ address <> []
     /\ Forall (fun c => is_space c = false /\ is_upper_az c = false) address
     /\ email address = Ok address)
  /\ ((exists name message, email value = Err name message)
      <-> forallb is_space value = true).
Proof.
  intros _. rewrite email_spec.
  set (v := filter (fun c => negb (is_space c)) value).
  assert (Hv : Forall (fun c => is_space c = false) v).
  { eapply Forall_impl; [|apply filter_Forall].
    intros c H. apply negb_true_iff in H. exact H. }
  destruct (toLowerCase_facts Hv) as [Hf Hi].
  assert (He : toLowerCase v = [] <-> forallb is_space value = true).
  { rewrite <- filter_nil_forallb. fold v. split.
    - intros H. destruct v as [|a l]; [reflexivity|].
      exfalso. revert H. apply toLowerCase_nonempty. discriminate.
    - intros ->. reflexivity. }
  split.
  - intros address H.
    destruct (toLowerCase v) as [|a l] eqn:E; [discriminate|].
    assert (Ha : address = a :: l) by (cbn [nonempty] in H; congruence).
    clear H. subst address. split; [reflexivity|]. split; [discriminate|].
    split; [exact Hf|].
    rewrite email_spec.
    assert (Hn : filter (fun c => negb (is_space c)) (a :: l) = a :: l).
    { apply filter_all. eapply Forall_impl; [|exact Hf].
      intros c [Hc _]. rewrite Hc. reflexivity. }
    rewrite Hn, Hi. reflexivity.
  - destruct (toLowerCase v) as [|a l] eqn:E; cbn [nonempty].
    + split; [intros _; apply He; reflexivity|eauto].
    + split; [intros (n & msg & H); discriminate|].
      intros H. apply He in H. discriminate.
Qed.

Lemma email_result_witness :
  js "foo@bar.com" <> [].
Proof.
  apply (proj1 (@email_result (js " Foo@Bar.com") ltac:(
           repeat (apply Forall_cons || apply Forall_nil);
           vm_compute; discriminate)) (js "foo@bar.com")).
  vm_compute. reflexivity.
Defined.

(** ** The chain [safe], [spaces], [trim], [nonEmpty] *)

Lemma forallb_filter_neg (p q : char -> bool) s :
  forallb q (filter (fun c => negb (p c)) s)
  = forallb (fun c => p c || q c) s.
Proof.
  induction s as [|c t IH]; [reflexivity|]. cbn [filter forallb].
  destruct (p c); cbn [negb orb forallb]; rewrite IH; reflexivity.
Qed.

Lemma forallb_impl (p q : char -> bool) s :
  (forall c, In c s -> p c = q c) -> forallb p s = forallb q s.
Proof.
  induction s as [|c t IH]; intros H; [reflexivity|]. cbn [forallb].
  rewrite (H c (or_introl eq_refl)), IH; [reflexivity|].
  intros x Hx. apply H. right. exact Hx.
Qed.

Lemma spaces_blank_iff value :
  forallb is_space (spaces value) = true <-> forallb space_like value = true.
Proof.
  rewrite <- (filter_nil_forallb space_like value).
  rewrite <- (spaces_others value).
  rewrite filter_nil_forallb.
  rewrite (@forallb_impl is_space space_like (spaces value)); [tauto|].
  intros c Hc. pose proof (spaces_chars value) as H.
  rewrite Forall_forall in H. destruct (H c Hc) as [->|Hs]; [reflexivity|].
  rewrite Hs. unfold space_like in Hs. apply orb_false_iff in Hs. apply Hs.
Qed.

(** The chain of the documentation, [safe] then [spaces] then [trim] and
    [nonEmpty]: the text that reaches [nonEmpty] has no dangerous code
    unit, no space-like code unit but single U+0020 between other code
    units, and [nonEmpty] refuses it exactly when every code unit of the
    input is dangerous or space-like. *)
Theorem sanitize_chain (value : jsstring) :
  well_spaced (trim (spaces (safe value)))
  /\ Forall (fun c => is_dangerous c = false
                      /\ (c = c_space \/ space_like c = false))
       (trim (spaces (safe value)))
  /\ ((exists name message,
         nonempty (trim (spaces (safe value))) = Err name message)
      <-> forallb (fun c => is_dangerous c || space_like c) value = true).
Proof.
  split; [|split].
  - apply tidy_well_spaced. unfold trim. apply trim_end_tidy.
    apply trim_start_no_double with (b := false). apply spaces_no_double.
  - apply trim_chars.
    assert (Hd : Forall (fun c => is_dangerous c = false) (spaces (safe value))).
    { rewrite spaces_spec. apply squeeze_chars.
      - repeat constructor.
      - unfold safe. rewrite replace_chr_del.
        induction value as [|c t IH]; cbn [filter map]; [constructor|].
        destruct (is_dangerous c) eqn:E; cbn [negb map filter]; [exact IH|].
        destruct (is_space (regular c)) eqn:Es; cbn [negb]; [exact IH|].
        constructor; [|exact IH].
        unfold regular in *. destruct (is_irregular_space c); [|exact E].
        discriminate. }
    pose proof (spaces_chars (safe value)) as Hc.
    rewrite Forall_forall in *. intros c Hin. split; auto.
  - assert (He : trim (spaces (safe value)) = []
                 <-> forallb (fun c => is_dangerous c || space_like c) value
                     = true).
    { rewrite trim_empty_iff, spaces_blank_iff. unfold safe.
      rewrite replace_chr_del, forallb_filter_neg. tauto. }
    destruct (trim (spaces (safe value))) as [|a l]; cbn [nonempty].
    + split; [intros _; apply He; reflexivity|eauto].
    + split; [intros (n & msg & H); discriminate|].
      intros H. apply He in H. discriminate.
Qed.

Lemma sanitize_chain_witness :
  exists name message,
    nonempty (trim (spaces (safe (js "  ;  ")))) = Err name message.
Proof.
  apply (proj2 (proj2 (proj2 (sanitize_chain (js "  ;  "))))).
  vm_compute. reflexivity.
Defined.

(** ** [split] *)

Lemma split_from_plus p : forall s cur pv,
  split_from (Plus (Chr p)) 0 cur pv s = map Some (fields p cur false s)
  /\ split_from (Plus (Chr p)) (lead p s) [] pv s
     = map Some (fields p [] true s).
Proof.
  induction s as [|c t IH]; intros cur pv; [split; reflexivity|].
  cbn [lead fields]. destruct (p c) eqn:E.
  - split.
    + cbn [split_from]. rewrite exec_plus_chr by exact E.
      rewrite idx_run_state. cbn [Nat.add split_caps groups Plus app].
      change (split_caps (Plus (Chr p))
                (caps (run_state p 1 (Some c) t no_caps))) with (@nil (option jsstring)).
      cbn [app]. rewrite (proj2 (IH [] (Some c))). reflexivity.
    + cbn [split_from]. rewrite (proj2 (IH [] (Some c))). reflexivity.
  - assert (H0 : forall cur',
               split_from (Plus (Chr p)) 0 cur' pv (c :: t)
               = map Some (fields p (cur' ++ [c]) false t)).
    { intros cur'. cbn [split_from]. rewrite exec_plus_chr_none.
      - apply (proj1 (IH (cur' ++ [c]) (Some c))).
      - intros c' t' H. inversion H; subst. exact E. }
    split; apply H0.
Qed.

Lemma split_re_plus p s :
  split_re (Plus (Chr p)) s = map Some (fields p [] false s).
Proof.
  destruct s as [|c t].
  - unfold split_re. rewrite exec_plus_chr_none by (intros; discriminate).
    reflexivity.
  - apply (proj1 (split_from_plus p (c :: t) [] None)).
Qed.

Lemma map_trim_some l : map_trim (map Some l) = Ok (map trim l).
Proof.
  induction l as [|x t IH]; [reflexivity|]. cbn [map map_trim].
  rewrite IH. reflexivity.
Qed.

Lemma fields_chars (P : char -> Prop) p s : forall cur b,
  Forall P cur -> Forall P (filter (fun c => negb (p c)) s) ->
  Forall (Forall P) (fields p cur b s).
Proof.
  induction s as [|c t IH]; intros cur b Hc Hs; cbn [fields].
  - repeat constructor. exact Hc.
  - cbn [filter] in Hs. destruct (p c); cbn [negb] in Hs.
    + destruct b; [|constructor; [exact Hc|]]; apply IH; auto.
    + inversion Hs; subst. apply IH; [|assumption].
      apply Forall_app. auto.
Qed.

Lemma fields_concat p s : forall cur b,
  (b = true -> cur = []) ->
  List.concat (fields p cur b s) = cur ++ filter (fun c => negb (p c)) s.
Proof.
  induction s as [|c t IH]; intros cur b Hb; cbn [fields filter].
  - cbn [List.concat]. reflexivity.
  - destruct (p c); cbn [negb].
    + destruct b; [rewrite (Hb eq_refl)|cbn [List.concat]];
        rewrite IH by reflexivity; reflexivity.
    + rewrite IH by discriminate. rewrite <- app_assoc. reflexivity.
Qed.

Lemma sep_like_regular c : is_separator (regular c) = sep_like c.
Proof.
  unfold regular, sep_like. destruct (is_irregular_space c).
  - rewrite orb_true_r. reflexivity.
  - rewrite orb_false_r. reflexivity.
Qed.

Lemma space_is_separator c : is_space c = true -> is_separator c = true.
Proof. unfold is_separator. intros ->. apply orb_true_r. Qed.

Lemma fields_squeeze s : forall cur bs bf,
  (bs = true -> bf = true) -> (bf = true -> cur = []) ->
  fields is_separator cur bf (squeeze is_space [c_space] bs (map regular s))
  = fields sep_like cur bf s.
Proof.
  induction s as [|c t IH]; intros cur bs bf Hs Hf; [reflexivity|].
  cbn [map squeeze fields]. rewrite <- sep_like_regular.
  destruct (is_space (regular c)) eqn:E.
  - rewrite (space_is_separator _ E).
    destruct bs; cbn [app].
    + rewrite (Hs eq_refl) in *. rewrite (Hf eq_refl). apply IH; auto.
    + cbn [fields]. change (is_separator c_space) with true.
      destruct bf; [|f_equal]; apply IH; auto.
  - assert (Hr : regular c = c).
    { unfold regular in *. destruct (is_irregular_space c);
        [discriminate|reflexivity]. }
    rewrite Hr. cbn [fields]. destruct (is_separator c).
    + destruct bf; [|f_equal]; apply IH; auto; discriminate.
    + apply IH; discriminate.
Qed.

Lemma map_trim_fixed l :
  Forall (Forall (fun c => is_space c = false)) l -> map trim l = l.
Proof.
  intros H. induction H as [|x t Hx _ IH]; [reflexivity|]. cbn [map].
  rewrite IH. f_equal. rewrite Forall_forall in Hx.
  apply trim_fixed.
  - intros c r ->. apply Hx. left. reflexivity.
  - intros r c ->. apply Hx. apply in_or_app. right. left. reflexivity.
Qed.

Lemma fields_sep_like value :
  Forall (Forall (fun c => sep_like c = false))
    (fields sep_like [] false value).
Proof.
  apply fields_chars; [constructor|].
  eapply Forall_impl; [|apply filter_Forall].
  intros c H. apply negb_true_iff in H. exact H.
Qed.

Lemma sep_like_space c : sep_like c = false -> is_space c = false.
Proof.
  unfold sep_like, is_separator. intros H.
  repeat (apply orb_false_iff in H; destruct H as [H ?]). assumption.
Qed.

Lemma split_default_spec value :
  split re_separator value
  = Ok (filter (fun item => negb (is_empty item))
          (fields sep_like [] false value)).
Proof.
  unfold split, re_separator. rewrite split_re_plus, map_trim_some.
  rewrite spaces_spec, fields_squeeze by auto.
  rewrite map_trim_fixed; [reflexivity|].
  eapply Forall_impl; [|apply fields_sep_like].
  intros x Hx. eapply Forall_impl; [|exact Hx]. apply sep_like_space.
Qed.

Lemma concat_filter_nonempty (l : list jsstring) :
  List.concat (filter (fun item => negb (is_empty item)) l) = List.concat l.
Proof.
  induction l as [|x t IH]; [reflexivity|]. cbn [filter List.concat].
  destruct x; cbn [is_empty negb List.concat]; rewrite IH; reflexivity.
Qed.

(** With the default separator [split] never throws.  It returns the
    pieces of the input between the runs of commas, white space and
    irregular spaces, without the empty pieces: the items are not empty and
    hold no separator, and put end to end they are the input without its
    separators. *)
Theorem split_default_items (value : jsstring) :
  exists items,
    split re_separator value = Ok items
    /\ items = filter (fun item => negb (is_empty item))
                 (fields sep_like [] false value)
    /\ Forall (fun item =>
                 item <> [] /\ Forall (fun c => sep_like c = false) item)
         items
    /\ List.concat items = filter (fun c => negb (sep_like c)) value.
Proof.
  eexists. split; [apply split_default_spec|]. split; [reflexivity|]. split.
  - apply Forall_forall. intros x Hx. apply filter_In in Hx.
    destruct Hx as [Hin Hne]. split.
    + intros ->. discriminate.
    + pose proof (fields_sep_like value) as H.
      rewrite Forall_forall in H. apply H, Hin.
  - rewrite concat_filter_nonempty, fields_concat by discriminate.
    reflexivity.
Qed.

Lemma split_from_some r (Hg : groups r = []) : forall s skip cur pv,
  exists l, split_from r skip cur pv s = map Some l.
Proof.
  assert (Hc : forall cs, split_caps r cs = []).
  { intros cs. unfold split_caps. rewrite Hg. reflexivity. }
  induction s as [|c t IH]; intros skip cur pv; cbn [split_from].
  - exists [cur]. reflexivity.
  - destruct skip as [|n]; [|apply IH].
    destruct (exec r pv (c :: t)) as [st'|]; [|apply IH].
    rewrite Hc. cbn [app].
    destruct (idx st') as [|n].
    + destruct cur as [|a cur']; [apply IH|].
      destruct (IH 0 [c] (Some c)) as [l Hl]. exists ((a :: cur') :: l).
      rewrite Hl. reflexivity.
    + destruct (IH n [] (Some c)) as [l Hl]. exists (cur :: l).
      rewrite Hl. reflexivity.
Qed.

(** With a separator that has no capture group [split] never throws, and
    every item it returns is trimmed and not empty. *)
Theorem split_no_groups (separator : regex) (value : jsstring) :
  groups separator = [] ->
  exists items,
    split separator value = Ok items
    /\ Forall (fun item => item <> [] /\ trim item = item) items.
Proof.
  intros Hg.
  assert (H : exists l, split_re separator (spaces value) = map Some l).
  { unfold split_re. destruct (spaces value) as [|c t].
    - destruct (exec separator None []); [exists []|exists [[]]]; reflexivity.
    - apply split_from_some, Hg. }
  destruct H as [l Hl]. unfold split. rewrite Hl, map_trim_some.
  eexists. split; [reflexivity|].
  apply Forall_forall. intros x Hx. apply filter_In in Hx.
  destruct Hx as [Hin Hne]. split.
  - intros ->. discriminate.
  - apply in_map_iff in Hin. destruct Hin as (y & <- & _). apply trim_idem.
Qed.

Lemma split_no_groups_witness :
  exists items,
    split (Chr (chr_is c_hyphen)) (js "a - b") = Ok items
    /\ Forall (fun item => item <> [] /\ trim item = item) items.
Proof. apply split_no_groups. reflexivity. Defined.

(** * [src/validator.ts]: [within] *)

Lemma indexOf_from_nth l x : forall i, (0 <= i)%Z ->
  In x l ->
  exists k, indexOf_from i l x = (i + Z.of_nat k)%Z /\ nth_error l k = Some x.
Proof.
  induction l as [|y t IH]; intros i Hi Hin; [contradiction|].
  cbn [indexOf_from]. destruct (str_eqb y x) eqn:E.
  - apply str_eqb_eq in E. subst y. exists 0. split; [lia|reflexivity].
  - destruct Hin as [H|H]; [apply str_eqb_eq in H; congruence|].
    destruct (IH (i + 1)%Z ltac:(lia) H) as (k & Hk & Hn).
    exists (S k). split; [lia|exact Hn].
Qed.

(** [within] returns its argument when the list holds it, never
    [undefined], and throws an Error otherwise. *)
Theorem within_result (list : list jsstring) (value : jsstring) :
  (In value list -> within list value = Ok (Some value))
  /\ (~ In value list ->
      exists message, within list value = Err (js "Error") message)
  /\ within list value <> Ok None.
Proof.
  assert (Hin : In value list -> within list value = Ok (Some value)).
  { intros H. unfold within.
    destruct (@indexOf_from_nth list value 0%Z ltac:(lia) H) as (k & Hk & Hn).
    fold (indexOf list value) in Hk. rewrite Hk.
    replace (0 + Z.of_nat k >=? 0)%Z with true
      by (symmetry; apply Z.geb_le; lia).
    cbn [Z.add]. rewrite Nat2Z.id, Hn. reflexivity. }
  assert (Hout : ~ In value list ->
                 exists message, within list value = Err (js "Error") message).
  { intros H. unfold within.
    destruct (@indexOf_from_spec list value 0%Z ltac:(lia)) as [_ H2].
    fold (indexOf list value) in H2. rewrite (H2 H).
    cbn [Z.geb Z.compare]. eauto. }
  split; [exact Hin|]. split; [exact Hout|].
  destruct (in_dec (list_eq_dec N.eq_dec) value list) as [H|H].
  - rewrite (Hin H). discriminate.
  - destruct (Hout H) as [msg ->]. discriminate.
Qed.

Lemma within_result_witness :
  within [js "foo"; js "bar"] (js "bar") = Ok (Some (js "bar")).
Proof.
  apply (proj1 (within_result [js "foo"; js "bar"] (js "bar"))).
  right. left. reflexivity.
Defined.

(** * [limit] *)

Lemma slice0_nonneg (A : Type) (l : list A) (max : Z) :
  (0 <= max)%Z -> slice0 l max = firstn (Z.to_nat max) l.
Proof.
  intros H. unfold slice0.
  replace (max <? 0)%Z with false by (symmetry; apply Z.ltb_ge; lia).
  destruct (Z.le_ge_cases max (Z.of_nat (List.length l))) as [Hl|Hl].
  - rewrite Z.min_l by lia. reflexivity.
  - rewrite Z.min_r by lia. rewrite Nat2Z.id, firstn_all.
    symmetry. apply firstn_all2. lia.
Qed.

Lemma slice0_neg (A : Type) (l : list A) (max : Z) :
  (max < 0)%Z -> slice0 l max = firstn (List.length l - Z.to_nat (- max)) l.
Proof.
  intros H. unfold slice0.
  replace (max <? 0)%Z with true by (symmetry; apply Z.ltb_lt; lia).
  f_equal. lia.
Qed.

(** With a [max] that is not negative, [limit] returns at most [max] items
    of a string or an array, a prefix of its argument, and the argument
    itself when it is short enough; a number is cut down to [max]. *)
Theorem limit_bounds (A : Type) (max : Z) :
  (0 <= max)%Z ->
  (forall s, exists r,
      limit max (@LString A s) = Ok (LString r)
      /\ r = firstn (Z.to_nat max) s
      /\ (Z.of_nat (List.length r) <= max)%Z
      /\ ((Z.of_nat (List.length s) <= max)%Z -> r = s))
  /\ (forall l : list A, exists r,
         limit max (LArray l) = Ok (LArray r)
         /\ r = firstn (Z.to_nat max) l
         /\ (Z.of_nat (List.length r) <= max)%Z
         /\ ((Z.of_nat (List.length l) <= max)%Z -> r = l))
  /\ (forall z, exists r,
         limit max (@LNumber A z) = Ok (LNumber r)
         /\ (r <= max)%Z /\ (r <= z)%Z /\ (r = z \/ r = max)).
Proof.
  intros H.
  assert (Hs : forall (B : Type) (l : list B),
             slice0 l max = firstn (Z.to_nat max) l
             /\ (Z.of_nat (List.length (slice0 l max)) <= max)%Z
             /\ ((Z.of_nat (List.length l) <= max)%Z -> slice0 l max = l)).
  { intros B l. rewrite slice0_nonneg by exact H.
    split; [reflexivity|]. split.
    - rewrite length_firstn. lia.
    - intros Hl. apply firstn_all2. lia. }
  split; [|split].
  - intros s. exists (slice0 s max). split; [reflexivity|]. apply Hs.
  - intros l. exists (slice0 l max). split; [reflexivity|]. apply Hs.
  - intros z. exists (Z.min z max). split; [reflexivity|]. lia.
Qed.

Lemma limit_bounds_witness :
  exists r, limit 3 (@LString nat (js "foobar")) = Ok (LString r)
            /\ r = firstn (Z.to_nat 3) (js "foobar")
            /\ (Z.of_nat (List.length r) <= 3)%Z
            /\ ((Z.of_nat (List.length (js "foobar")) <= 3)%Z
                -> r = js "foobar").
Proof.
  apply (proj1 (@limit_bounds nat 3%Z ltac:(lia))).
Defined.

(** With a negative [max], [limit] does not bound a string or an array by
    [max]: it removes the last [-max] items. *)
Theorem limit_negative (A : Type) (max : Z) :
  (max < 0)%Z ->
  (forall s,
      limit max (@LString A s)
      = Ok (LString (firstn (List.length s - Z.to_nat (- max)) s)))
  /\ (forall l : list A,
         limit max (LArray l)
         = Ok (LArray (firstn (List.length l - Z.to_nat (- max)) l))).
Proof.
  intros H. split; intros x; cbn [limit]; rewrite slice0_neg by exact H;
    reflexivity.
Qed.

Lemma limit_negative_witness :
  limit (-1) (@LString nat (js "foobar")) = Ok (LString (js "fooba")).
Proof.
  apply (proj1 (@limit_negative nat (-1)%Z ltac:(lia)) (js "foobar")).
Defined.

(** Two limits in a row are the smaller limit, when neither is negative;
    [limit] throws only for a value that is not a number, a string or an
    array. *)
Theorem limit_twice (A : Type) (a b : Z) (value : limitable A) :
  (0 <= a)%Z -> (0 <= b)%Z ->
  match limit b value with
  | Ok limited => limit a limited = limit (Z.min a b) value
  | Err _ _ => exists repr, value = LOther repr
  end.
Proof.
  intros Ha Hb.
  assert (Hs : forall (B : Type) (l : list B),
             slice0 (slice0 l b) a = slice0 l (Z.min a b)).
  { intros B l. rewrite !slice0_nonneg by lia. rewrite firstn_firstn.
    f_equal. lia. }
  destruct value as [z|s|l|repr]; cbn [limit].
  - do 2 f_equal. lia.
  - rewrite Hs. reflexivity.
  - rewrite Hs. reflexivity.
  - eauto.
Qed.

Lemma limit_twice_witness :
  limit 2 (@LString nat (js "foo")) = limit (Z.min 2 3) (LString (js "foobar")).
Proof.
  apply (@limit_twice nat 2%Z 3%Z (LString (js "foobar"))); lia.
Defined.

(** * Capitals *)

Lemma upper_cu_head c :
  exists x r, upper_cu c = x :: r /\ upper_cu x = [x].
Proof.
  unfold upper_cu at 1.
  destruct (is_lower_az c) eqn:E1;
    [|destruct (c =? 181)%N eqn:E2;
      [|destruct (c =? 223)%N eqn:E3;
        [|destruct (c =? 247)%N eqn:E4;
          [|destruct (in_range 224%N 254%N c) eqn:E5;
            [|destruct (c =? 255)%N eqn:E6]]]]];
    eexists; eexists; (split; [reflexivity|]);
    try (unfold upper_cu; rewrite ?E1, ?E2, ?E3, ?E4, ?E5, ?E6; reflexivity);
    try (vm_compute; reflexivity).
  - unfold is_lower_az, in_range in E1. bool_to_prop.
    unfold upper_cu, is_lower_az, in_range.
    replace (c - 32 <=? 122)%N with true by (symmetry; apply N.leb_le; lia).
    replace (97 <=? c - 32)%N with false by (symmetry; apply N.leb_gt; lia).
    replace (c - 32 =? 181)%N with false by (symmetry; apply N.eqb_neq; lia).
    replace (c - 32 =? 223)%N with false by (symmetry; apply N.eqb_neq; lia).
    replace (c - 32 =? 247)%N with false by (symmetry; apply N.eqb_neq; lia).
    replace (224 <=? c - 32)%N with false by (symmetry; apply N.leb_gt; lia).
    replace (c - 32 =? 255)%N with false by (symmetry; apply N.eqb_neq; lia).
    reflexivity.
  - unfold in_range in E5. unfold is_lower_az, in_range in E1. bool_to_prop.
    unfold upper_cu, is_lower_az, in_range.
    replace (c - 32 <=? 122)%N with false by (symmetry; apply N.leb_gt; lia).
    replace (c - 32 =? 181)%N with false by (symmetry; apply N.eqb_neq; lia).
    replace (c - 32 =? 223)%N with false by (symmetry; apply N.eqb_neq; lia).
    replace (c - 32 =? 247)%N with false by (symmetry; apply N.eqb_neq; lia).
    replace (224 <=? c - 32)%N with false by (symmetry; apply N.leb_gt; lia).
    replace (c - 32 =? 255)%N with false by (symmetry; apply N.eqb_neq; lia).
    rewrite andb_false_r. reflexivity.
Qed.

Lemma upper_cu_cases c :
  ((97 <= c <= 122)%N \/ ((224 <= c <= 254)%N /\ c <> 247%N) ->
   upper_cu c = [(c - 32)%N])
  /\ (c = 181%N -> upper_cu c = [924%N])
  /\ (c = 223%N -> upper_cu c = [83%N; 83%N])
  /\ (c = 255%N -> upper_cu c = [376%N])
  /\ ((c < 97)%N \/ (122 < c < 181)%N \/ (181 < c < 223)%N \/ c = 247%N ->
      upper_cu c = [c]).
Proof.
  split; [|split; [|split; [|split]]];
    try (intros ->; reflexivity);
    intros H; unfold upper_cu, is_lower_az, in_range;
    repeat match goal with
           | |- context [if ?b then _ else _] => destruct b eqn:?
           end;
    bool_to_prop; first [reflexivity | exfalso; lia].
Qed.

(** Over U+0000 to U+00FF, where the case table is that of Unicode:
    [ucFirst] replaces the first code unit by its upper-case form and
    leaves the rest as it is.  A letter a-z, or U+00E0 to U+00FE other than
    the division sign, becomes the code unit 32 below it; the micro sign
    becomes U+039C, sharp s becomes SS and U+00FF becomes U+0178; any other
    first code unit is kept, and the empty string is returned as it is.
    [ucFirst] is idempotent. *)
Theorem ucFirst_result (value : jsstring) :
  Forall (fun c => (c <= 255)%N) (firstn 1 value) ->
  (value = [] -> ucFirst value = [])
  /\ (forall c t, value = c :: t ->
        ((97 <= c <= 122)%N \/ ((224 <= c <= 254)%N /\ c <> 247%N) ->
         ucFirst value = (c - 32)%N :: t)
        /\ (c = 181%N -> ucFirst value = 924%N :: t)
        /\ (c = 223%N -> ucFirst value = 83%N :: 83%N :: t)
        /\ (c = 255%N -> ucFirst value = 376%N :: t)
        /\ ((c < 97)%N \/ (122 < c < 181)%N \/ (181 < c < 223)%N
            \/ c = 247%N ->
            ucFirst value = value))
  /\ ucFirst (ucFirst value) = ucFirst value.
Proof.
  intros _. split; [intros ->; reflexivity|]. split.
  - intros c t ->. unfold ucFirst, toUpperCase.
    cbn [firstn skipn flat_map]. rewrite app_nil_r.
    destruct (upper_cu_cases c) as (H1 & H2 & H3 & H4 & H5).
    repeat split; intros H;
      [rewrite (H1 H)|rewrite (H2 H)|rewrite (H3 H)|rewrite (H4 H)
      |rewrite (H5 H)]; reflexivity.
  - unfold ucFirst, toUpperCase.
    destruct value as [|c t]; [reflexivity|].
    cbn [firstn skipn flat_map]. rewrite app_nil_r.
    destruct (upper_cu_head c) as (x & r & Hx & Hxx).
    rewrite Hx. cbn [app firstn skipn flat_map]. rewrite Hxx. reflexivity.
Qed.

Lemma ucFirst_result_witness :
  ucFirst (js "élan") = js "Élan".
Proof.
  apply (proj1 (proj1 (proj2 (@ucFirst_result (js "élan") ltac:(
           repeat (apply Forall_cons || apply Forall_nil);
           vm_compute; discriminate))) 233%N (js "lan") eq_refl)).
  right. split; [lia|discriminate].
Defined.

(** A token of one code unit and a token that is one of the suffixes ii,
    iii, iv, v in any case are upper-cased, whatever the mixed-case flag
    is. *)
Theorem initial_and_suffix_uppercased (mixedCase : bool) (match_ : jsstring) :
  List.length match_ = 1 \/ In (toLowerCase match_) roman_suffixes ->
  properNameCapitalizer mixedCase match_ = toUpperCase match_.
Proof.
  intros H. unfold properNameCapitalizer.
  destruct (Nat.eqb_spec (List.length match_) 1) as [E|E]; [reflexivity|].
  destruct H as [H|H]; [contradiction|].
  rewrite (proj2 (indexOf_found roman_suffixes (toLowerCase match_)) H).
  assert (Hl : List.length match_ <= 3).
  { rewrite <- toLowerCase_length. cbn [roman_suffixes In] in H.
    destruct H as [H|[H|[H|[H|[]]]]]; rewrite <- H; cbn [List.length]; lia. }
  apply Nat.leb_le in Hl. rewrite Hl. reflexivity.
Qed.

Lemma initial_and_suffix_uppercased_witness :
  properNameCapitalizer true (js "Iv") = js "IV".
Proof.
  apply (@initial_and_suffix_uppercased true (js "Iv")).
  right. vm_compute. auto.
Defined.

(** * The name prefixes of [properNameCapitalizer] *)

Lemma m_Eps k st : m Eps k st = k st.
Proof. reflexivity. Qed.

Lemma prefix_tail_match (a b : char) (r : jsstring) i pv g1 (k : cont) :
  is_nonspace a = true -> is_nonspace b = true ->
  Forall (fun c => is_nonspace c = true) r ->
  exists pv', forall x,
    k (MState (S (S i) + List.length r) pv' [] g1) = Some x ->
    m (seqs [Chr is_nonspace; Chr is_nonspace; Star (Chr is_nonspace); Eol]) k
      (MState i pv (a :: b :: r) g1) = Some x.
Proof.
  intros Ha Hb Hr.
  destruct (@run_state_all is_nonspace r (S (S i)) (Some b) g1 Hr) as [pv' E].
  exists pv'. intros x Hk. cbn [seqs].
  rewrite m_Seq, m_Chr. cbn [rest idx caps]. rewrite Ha.
  rewrite m_Seq, m_Chr. cbn [rest idx caps]. rewrite Hb.
  rewrite m_Seq, m_Star. cbn [rest groups].
  apply star_chr_greedy; [lia|]. rewrite E. cbn [m rest]. exact Hk.
Qed.

Lemma group2_match (a b : char) (r : jsstring) i pv g1 :
  is_nonspace a = true -> is_nonspace b = true ->
  Forall (fun c => is_nonspace c = true) r ->
  exists st',
    m (Group 2 (seqs [Chr is_nonspace; Chr is_nonspace;
                      Star (Chr is_nonspace); Eol])) Some
      (MState i pv (a :: b :: r) g1) = Some st'
    /\ idx st' = i + S (S (List.length r))
    /\ caps st' = set_cap 2 (a :: b :: r) g1.
Proof.
  intros Ha Hb Hr. rewrite m_Group.
  destruct (@prefix_tail_match a b r i pv g1
              (fun st' => Some (with_caps st'
                 (set_cap 2 (consumed (MState i pv (a :: b :: r) g1) st')
                    (caps st')))) Ha Hb Hr) as [pv' H].
  eexists. split; [apply H; reflexivity|].
  cbn [with_caps idx caps]. split; [lia|].
  unfold consumed. cbn [idx rest].
  replace (S (S i) + List.length r - i) with (S (S (List.length r))) by lia.
  cbn [firstn]. rewrite firstn_all. reflexivity.
Qed.

Ltac prefix_tail Ha Hb Hr :=
  unfold with_caps; cbn [idx prev rest caps];
  match goal with
  | |- context [m (Group 2 _) Some (MState ?i ?pv (?a :: ?b :: ?r) ?g)] =>
    let st' := fresh "st" in
    let E := fresh "E" in
    let Hi := fresh "Hi" in
    let Hc := fresh "Hc" in
    destruct (@group2_match a b r i pv g Ha Hb Hr) as (st' & E & Hi & Hc);
    cbn [seqs] in E; rewrite E; exists st';
    split; [reflexivity|]; split; [exact Hi|];
    rewrite Hc; unfold cap, set_cap, consumed; cbn; auto
  end.

Lemma exec_prefix P a b r :
  In P name_prefixes ->
  is_nonspace a = true -> is_nonspace b = true ->
  Forall (fun c => is_nonspace c = true) r ->
  exists st', exec re_prefix None (P ++ a :: b :: r) = Some st'
              /\ idx st' = List.length P + S (S (List.length r))
              /\ cap (caps st') 1 = P
              /\ cap (caps st') 2 = a :: b :: r.
Proof.
  intros HP Ha Hb Hr. unfold exec, re_prefix. cbn [seqs].
  rewrite m_Seq, m_Bol. cbn [prev]. rewrite m_Seq, m_Group.
  cbn [name_prefixes In] in HP.
  destruct HP as [<-|[<-|[<-|[<-|[]]]]]; cbn [app].
  - rewrite m_Alt. cbn [seqs]. unfold Opt.
    rewrite m_Seq, m_Chr. cbn [rest idx caps].
    change (any_of [109%N; 77%N] 77%N) with true. cbv iota.
    rewrite m_Seq, m_Alt, m_Chr. cbn [rest idx caps].
    change (any_of [97%N; 65%N] 99%N) with false. cbv iota.
    rewrite m_Eps, m_Chr. cbn [rest idx caps].
    change (any_of [99%N; 67%N] 99%N) with true. cbv iota beta.
    prefix_tail Ha Hb Hr.
  - rewrite m_Alt. cbn [seqs]. unfold Opt.
    rewrite m_Seq, m_Chr. cbn [rest idx caps].
    change (any_of [109%N; 77%N] 77%N) with true. cbv iota.
    rewrite m_Seq, m_Alt, m_Chr. cbn [rest idx caps].
    change (any_of [97%N; 65%N] 97%N) with true. cbv iota.
    rewrite m_Chr. cbn [rest idx caps].
    change (any_of [99%N; 67%N] 99%N) with true. cbv iota beta.
    prefix_tail Ha Hb Hr.
  - rewrite m_Alt. cbn [seqs]. unfold Opt.
    rewrite m_Seq, m_Chr. cbn [rest idx caps].
    change (any_of [109%N; 77%N] 79%N) with false. cbv iota.
    rewrite m_Seq, m_Chr. cbn [rest idx caps].
    change (any_of [111%N; 79%N; 100%N; 68%N] 79%N) with true. cbv iota.
    rewrite m_Chr. cbn [rest idx caps].
    change (chr_is c_rsquo c_rsquo) with true. cbv iota beta.
    prefix_tail Ha Hb Hr.
  - rewrite m_Alt. cbn [seqs]. unfold Opt.
    rewrite m_Seq, m_Chr. cbn [rest idx caps].
    change (any_of [109%N; 77%N] 68%N) with false. cbv iota.
    rewrite m_Seq, m_Chr. cbn [rest idx caps].
    change (any_of [111%N; 79%N; 100%N; 68%N] 68%N) with true. cbv iota.
    rewrite m_Chr. cbn [rest idx caps].
    change (chr_is c_rsquo c_rsquo) with true. cbv iota beta.
    prefix_tail Ha Hb Hr.
Qed.

Lemma replace_first_from_hit r f pv s st' :
  exec r pv s = Some st' ->
  replace_first_from r f pv s
  = f (firstn (idx st') s) (caps st') ++ skipn (idx st') s.
Proof. intros E. destruct s; cbn [replace_first_from]; rewrite E; reflexivity. Qed.

Lemma replace_prefix P a b r :
  In P name_prefixes ->
  is_nonspace a = true -> is_nonspace b = true ->
  Forall (fun c => is_nonspace c = true) r ->
  replace_1 re_prefix (fun _ cs => ucFirst (cap cs 1) ++ ucFirst (cap cs 2))
    (P ++ a :: b :: r)
  = ucFirst P ++ ucFirst (a :: b :: r).
Proof.
  intros HP Ha Hb Hr.
  destruct (@exec_prefix P a b r HP Ha Hb Hr) as (st' & E & Hi & H1 & H2).
  unfold replace_1. rewrite (@replace_first_from_hit _ _ _ _ _ E), H1, H2.
  rewrite skipn_all2; [rewrite app_nil_r; reflexivity|].
  rewrite Hi, length_app. cbn [List.length]. lia.
Qed.

(** A token whose lower-case form is mc, mac, o’ or d’ followed by two or
    more code units that are not white space gets the first letter of the
    prefix and the first letter of what follows upper-cased, whatever the
    mixed-case flag is. *)
Theorem name_prefix_capitalized (mixedCase : bool)
    (match_ prefix rest : jsstring) :
  In prefix [js "mc"; js "mac"; js "o’"; js "d’"] ->
  toLowerCase match_ = prefix ++ rest ->
  2 <= List.length rest ->
  Forall (fun c => is_space c = false) rest ->
  properNameCapitalizer mixedCase match_ = ucFirst prefix ++ ucFirst rest.
Proof.
  intros HP HL Hlen Hr.
  destruct rest as [|a [|b r]]; try (cbn [List.length] in Hlen; lia).
  assert (Hns : forall c, is_space c = false -> is_nonspace c = true).
  { intros c H. unfold is_nonspace. rewrite H. reflexivity. }
  inversion Hr as [|? ? Ha Hr1]; subst.
  inversion Hr1 as [|? ? Hb Hr2]; subst.
  assert (Hr' : Forall (fun c => is_nonspace c = true) r)
    by (eapply Forall_impl; [|exact Hr2]; exact Hns).
  apply Hns in Ha, Hb.
  assert (Hm : 4 <= List.length match_).
  { rewrite <- toLowerCase_length, HL, length_app. cbn [List.length].
    cbn [In] in HP.
    destruct HP as [<-|[<-|[<-|[<-|[]]]]]; cbn [List.length]; vm_compute; lia. }
  unfold properNameCapitalizer. cbv zeta.
  replace (List.length match_ =? 1) with false
    by (symmetry; apply Nat.eqb_neq; lia).
  replace (List.length match_ <=? 3) with false
    by (symmetry; apply Nat.leb_gt; lia).
  cbn [andb]. rewrite HL.
  assert (HU : exists P, In P name_prefixes /\ ucFirst prefix = P
                         /\ ucFirst P = P
                         /\ ucFirst (prefix ++ a :: b :: r) = P ++ a :: b :: r).
  { cbn [In] in HP.
    destruct HP as [<-|[<-|[<-|[<-|[]]]]]; eexists;
      (split; [|split; [reflexivity|split; reflexivity]]);
      vm_compute; auto. }
  destruct HU as (P & HP' & -> & HPP & ->).
  rewrite (@replace_prefix P a b r HP' Ha Hb Hr'), HPP. reflexivity.
Qed.

Lemma name_prefix_capitalized_witness :
  properNameCapitalizer false (js "MACDONALD")
  = ucFirst (js "mac") ++ ucFirst (js "donald").
Proof.
  apply (@name_prefix_capitalized false (js "MACDONALD") (js "mac")
           (js "donald")).
  - right. left. reflexivity.
  - vm_compute. reflexivity.
  - vm_compute. lia.
  - repeat (apply Forall_cons || apply Forall_nil); reflexivity.
Defined.

